(** * QFieldCloud: the job dequeue command and the deltafile upload view

    A shallow embedding of
    - [docker-app/qfieldcloud/core/management/commands/dequeue.py]
      (the scheduler: [GracefulKiller], [Command.handle], [Command._run]);
    - [docker-app/qfieldcloud/core/views/deltas_views.py]
      ([ListCreateDeltasView.post], [DeltaFilePermissions.has_permission]
      and the two [get_queryset] methods).

    Django querysets are read as list transformers over the rows of a table,
    the bodies of [handle] and [post] thread the database explicitly, and the
    polling loop of [handle] is a transition system whose program points are
    the statements of the loop. *)

From Stdlib Require Import List ZArith NArith Bool String Lia Permutation Sorted.
Import ListNotations.

Set Warnings "-register-all".

(** ** Exceptions and results shared by both files *)

Inductive result (E A : Type) : Type :=
| Ok (a : A)
| Raise (e : E).
Arguments Ok {E A} a.
Arguments Raise {E A} e.

Module Dequeue.

(** *** The [Job] model *)

(** Modelled from the spec: [Job.Status] is declared in
    [qfieldcloud/core/models.py], which is not part of the sources at hand; the
    spec lists the states pending, queued, started, finished and failed. *)
Inductive Status : Set := PENDING | QUEUED | STARTED | FINISHED | FAILED.

Definition Status_eqb (a b : Status) : bool :=
  match a, b with
  | PENDING, PENDING | QUEUED, QUEUED | STARTED, STARTED
  | FINISHED, FINISHED | FAILED, FAILED => true
  | _, _ => false
  end.

(** Modelled from the spec: the columns of a job row the command touches.
    [type] is kept as the raw string stored in the row, so that a row may
    carry a value outside [Job.Type]. *)
Record Job : Set := mkJob {
  id : N;
  type : string;
  status : Status;
  project_id : N;
  created_at : Z
}.

(** The table [Job.objects] is the list of its rows, in the order in which a
    scan of the table meets them. *)
Definition Store := list Job.

(** *** Queryset combinators used by [handle] *)

(** [status=Job.Status.PENDING] *)
Definition status_is (s : Status) (j : Job) : bool := Status_eqb (status j) s.

(** [status__in=[...]] *)
Definition status__in (l : list Status) (j : Job) : bool :=
  existsb (Status_eqb (status j)) l.

(** [Count("project__jobs", filter=Q(project__jobs__status__in=[QUEUED, STARTED]))]:
    for the row [j], the number of rows reached through [j.project.jobs]
    whose status is queued or started. *)
Definition active_jobs_count (db : Store) (j : Job) : nat :=
  List.length
    (filter (fun k => N.eqb (project_id k) (project_id j)
                      && status__in [QUEUED; STARTED] k) db).

(** Lines 53-70: pending rows annotated with [active_jobs_count], kept when
    the count is positive, projected on [project_id]. *)
Definition busy_projects_ids_qs (db : Store) : list N :=
  map project_id
    (filter (fun j => Nat.ltb 0 (active_jobs_count db j))
       (filter (status_is PENDING) db)).

(** [project_id__in=busy_projects_ids_qs] *)
Definition project_id__in (ids : list N) (j : Job) : bool :=
  existsb (N.eqb (project_id j)) ids.

(** Lines 75-76: [.filter(status=PENDING).exclude(project_id__in=...)]. *)
Definition candidates (db : Store) : list Job :=
  filter (fun j => negb (project_id__in (busy_projects_ids_qs db) j))
    (filter (status_is PENDING) db).

(** [.order_by("created_at")] is carried out by the database.  The code names
    [created_at] as the only sort key, so all the command may rely on is that
    the rows come back rearranged in non-decreasing [created_at] order. *)
Class OrderBy := order_by_created_at : list Job -> list Job.

Definition created_at_le (a b : Job) : Prop := (created_at a <= created_at b)%Z.

Record order_by_spec (O : OrderBy) : Prop := {
  order_by_perm : forall l, Permutation l (order_by_created_at l);
  order_by_sorted : forall l, StronglySorted created_at_le (order_by_created_at l)
}.
Arguments order_by_perm {O} _ l.
Arguments order_by_sorted {O} _ l.

(** [select_for_update(skip_locked=True)]: rows whose lock is held by another
    transaction are left out of the result.  [locked] lists the ids of those
    rows; it is empty when no other worker is inside its claim transaction. *)
Definition select_for_update_skip_locked (locked : list N) (l : list Job) : list Job :=
  filter (fun j => negb (existsb (N.eqb (id j)) locked)) l.

(** A job is active when it is queued or started; a row is unlocked when no
    other transaction holds its lock. *)
Definition active (j : Job) : Prop := status j = QUEUED \/ status j = STARTED.

Definition unlocked (locked : list N) (j : Job) : Prop := ~ In (id j) locked.

(** The candidate set in the words of the specification: the project ids
    with at least one queued or started job, and the pending jobs whose
    project id is not among them. *)
Definition spec_busy_project_ids (db : Store) : list N :=
  map project_id (filter (status__in [QUEUED; STARTED]) db).

Definition spec_candidates (db : Store) : list Job :=
  filter (fun j => status_is PENDING j
                   && negb (existsb (N.eqb (project_id j)) (spec_busy_project_ids db)))
    db.

Section Claim.
Context {O : OrderBy}.

(** Lines 73-78. *)
Definition jobs_qs (locked : list N) (db : Store) : list Job :=
  select_for_update_skip_locked locked (order_by_created_at (candidates db)).

(** [queued_job.status = Job.Status.QUEUED] *)
Definition set_status (s : Status) (j : Job) : Job :=
  {| id := id j; type := type j; status := s;
     project_id := project_id j; created_at := created_at j |}.

(** [Model.save()]: update the row with this primary key, insert it when
    there is none. *)
Definition save (j : Job) (db : Store) : Store :=
  if existsb (fun r => N.eqb (id r) (id j)) db
  then map (fun r => if N.eqb (id r) (id j) then j else r) db
  else db ++ [j].

(** Lines 51-87, the body of [with transaction.atomic()]: the value left in
    [queued_job] and the table after the commit. *)
Definition atomic_block (locked : list N) (db : Store) : option Job * Store :=
  match hd_error (jobs_qs locked db) with
  | Some j =>
      let queued_job := set_status QUEUED j in
      (Some queued_job, save queued_job db)
  | None => (None, db)
  end.

End Claim.

(** Two databases that both honour [order_by("created_at")]: an insertion
    sort that leaves rows of equal [created_at] in table order, and one that
    returns them in the opposite order. *)
Fixpoint insert_by (before : Z -> Z -> bool) (j : Job) (l : list Job) : list Job :=
  match l with
  | [] => [j]
  | k :: r =>
      if before (created_at j) (created_at k) then j :: k :: r
      else k :: insert_by before j r
  end.

Definition sort_by (before : Z -> Z -> bool) (l : list Job) : list Job :=
  fold_right (insert_by before) [] l.

Definition table_order : OrderBy := sort_by Z.leb.
Definition reverse_order : OrderBy := sort_by Z.ltb.

Definition total_before (before : Z -> Z -> bool) : Prop :=
  forall a b : Z,
    (before a b = true -> (a <= b)%Z) /\ (before a b = false -> (b <= a)%Z).

(** *** [Command._run] *)

(** The members of [Job.Type] used as keys of [job_run_classes].  Their
    string values are declared in [qfieldcloud/core/models.py], which is not
    part of the sources at hand, so they are parameters. *)
Class JobType := {
  PACKAGE : string;
  DELTA_APPLY : string;
  PROCESS_PROJECTFILE : string
}.

(** The classes imported from [worker_wrapper.wrapper]. *)
Inductive JobRunClass : Set :=
| PackageJobRun
| DeltaApplyJobRun
| ProcessProjectfileJobRun.

(** A Python [dict] with string keys: the binding set last is found first. *)
Definition dict (V : Type) := list (string * V).

Definition dict_set {V} (k : string) (v : V) (d : dict V) : dict V := (k, v) :: d.

Fixpoint dict_get {V} (k : string) (d : dict V) : option V :=
  match d with
  | [] => None
  | (k', v) :: r => if String.eqb k k' then Some v else dict_get k r
  end.

Inductive Exn : Set :=
| NotImplementedError (msg : string)
| WrapperError (msg : string).

(** [job_run_class(job.id).run()]: what the imported class does to the table
    and whether an exception leaves [run()]. *)
Class Wrapper := job_run : JobRunClass -> N -> Store -> Store * result Exn unit.

Section Run.
Context {T : JobType} {W : Wrapper}.

(** Lines 104-108. *)
Definition job_run_classes : dict JobRunClass :=
  dict_set PROCESS_PROJECTFILE ProcessProjectfileJobRun
    (dict_set DELTA_APPLY DeltaApplyJobRun
       (dict_set PACKAGE PackageJobRun [])).

(** The type strings that are members of [Job.Type]. *)
Definition known_type (ty : string) : Prop :=
  ty = PACKAGE \/ ty = DELTA_APPLY \/ ty = PROCESS_PROJECTFILE.

(** Lines 110-113: the class picked for a type, or the [NotImplementedError]. *)
Definition dispatch (ty : string) : result Exn JobRunClass :=
  match dict_get ty job_run_classes with
  | Some job_run_class => Ok job_run_class
  | None => Raise (NotImplementedError ("Unknown job type " ++ ty))
  end.

(** Lines 103-116. *)
Definition _run (job : Job) (db : Store) : Store * result Exn unit :=
  match dispatch (type job) with
  | Ok job_run_class => job_run job_run_class (id job) db
  | Raise e => (db, Raise e)
  end.

End Run.

(** *** [GracefulKiller] *)

Record GracefulKiller : Set := { alive : bool }.

(** [alive = True] *)
Definition GracefulKiller_init : GracefulKiller := {| alive := true |}.

(** [self.alive = False] *)
Definition _kill (k : GracefulKiller) : GracefulKiller := {| alive := false |}.

(** *** [Command.handle] *)

Definition SECONDS : nat := 5.

(** What an observer of the process sees the loop do. *)
Inductive Event : Set :=
| ReadAlive (b : bool)   (* [killer.alive] evaluated to [b] *)
| Dequeued (job : N)     (* line 85, [logging.info] *)
| Run (job : N)          (* line 90, [self._run] returned *)
| Sleep1.                (* line 98, [sleep(1)] *)

(** The statements of the loop at which control can stand. *)
Inductive PC : Set :=
| WhileAlive                      (* line 43 *)
| AtomicBlock                     (* lines 49-87 *)
| IfQueuedJob (q : option Job)    (* line 89 *)
| ForSleep (i : nat)              (* lines 96-98, [_i = i] *)
| IfSingleShot                    (* line 100 *)
| Returned                        (* the loop is left, [handle] returns *)
| Raised (e : Exn).               (* an exception has left [handle] *)

Record Config : Set := {
  pc : PC;
  db : Store;
  killer : GracefulKiller;
  log : list Event
}.

Definition goto (p : PC) (evs : list Event) (c : Config) : Config :=
  {| pc := p; db := db c; killer := killer c; log := log c ++ evs |}.

(** A signal runs [_kill] between two statements and touches nothing else. *)
Definition signalled (c : Config) : Config :=
  {| pc := pc c; db := db c; killer := _kill (killer c); log := log c |}.

Section Handle.
Context {O : OrderBy} {T : JobType} {W : Wrapper}.
Variable single_shot : bool.

(** One statement of the loop.  The worker is taken to run alone: no row is
    locked by another transaction when the atomic block runs.  Clearing the
    [ContentType] cache (lines 46-47) touches neither the job table nor the
    flag and is left out. *)
Definition step (c : Config) : Config :=
  match pc c with
  | WhileAlive =>
      if alive (killer c)
      then goto AtomicBlock [ReadAlive true] c
      else goto Returned [ReadAlive false] c
  | AtomicBlock =>
      let (queued_job, db') := atomic_block [] (db c) in
      {| pc := IfQueuedJob queued_job;
         db := db';
         killer := killer c;
         log := log c ++ match queued_job with
                         | Some j => [Dequeued (id j)]
                         | None => []
                         end |}
  | IfQueuedJob (Some queued_job) =>
      match _run queued_job (db c) with
      | (db', Ok _) =>
          {| pc := IfSingleShot; db := db'; killer := killer c;
             log := log c ++ [Run (id queued_job)] |}
      | (db', Raise e) =>
          {| pc := Raised e; db := db'; killer := killer c; log := log c |}
      end
  | IfQueuedJob None =>
      if single_shot then goto Returned [] c else goto (ForSleep 0) [] c
  | ForSleep i =>
      if Nat.ltb i SECONDS then
        if alive (killer c)
        then goto (ForSleep (S i)) [ReadAlive true; Sleep1] c
        else goto (ForSleep (S i)) [ReadAlive false] c
      else goto IfSingleShot [] c
  | IfSingleShot =>
      if single_shot then goto Returned [] c else goto WhileAlive [] c
  | Returned => c
  | Raised _ => c
  end.

(** The process either executes its next statement or receives one of the
    two signals [GracefulKiller.__init__] installs [_kill] for. *)
Inductive Input : Set := Tick | SIGINT | SIGTERM.

Definition deliver (c : Config) (i : Input) : Config :=
  match i with
  | Tick => step c
  | SIGINT | SIGTERM => signalled c
  end.

Definition run_inputs (c : Config) (ins : list Input) : Config :=
  fold_left deliver ins c.

(** [n] statements without a signal in between. *)
Definition steps (n : nat) (c : Config) : Config := Nat.iter n step c.

(** Lines 40-43: the state in which the loop is entered. *)
Definition handle (db0 : Store) : Config :=
  {| pc := WhileAlive; db := db0; killer := GracefulKiller_init; log := [] |}.

End Handle.

(** What one iteration that finds no job and is not interrupted logs. *)
Definition idle_iteration_log : list Event :=
  ReadAlive true :: List.concat (repeat [ReadAlive true; Sleep1] SECONDS).

Definition ticks (ins : list Input) : nat :=
  List.length (filter (fun i => match i with Tick => true | _ => false end) ins).

(** Two states of the loop that differ at most in the flag. *)
Definition same_view (c c' : Config) : Prop :=
  pc c = pc c' /\ db c = db c' /\ log c = log c'.

(** The statements after the loop head other than the idle sleep. *)
Definition past_loop_head (p : PC) : bool :=
  match p with
  | WhileAlive | ForSleep _ => false
  | _ => true
  end.

(** The statements that evaluate [killer.alive]. *)
Definition check_point (p : PC) : bool :=
  match p with
  | WhileAlive => true
  | ForSleep i => Nat.ltb i SECONDS
  | _ => false
  end.

(** *** Polls in a row *)

Section Polls.
Context {O : OrderBy}.

(** Successive executions of the atomic block, each committed before the
    next begins, with no other write to the table in between.  [lockeds]
    gives for each execution the rows it finds locked and therefore skips;
    what the holder of such a lock goes on to write is not part of the
    sequence, so executions that overlap in time are not described.  The
    result is the list of the jobs claimed, first claim first, and the
    table left. *)
Fixpoint polls (lockeds : list (list N)) (db : Store) : list Job * Store :=
  match lockeds with
  | [] => ([], db)
  | locked :: rest =>
      match atomic_block locked db with
      | (Some queued_job, db') =>
          let (claimed, db'') := polls rest db' in
          (queued_job :: claimed, db'')
      | (None, db') => polls rest db'
      end
  end.

End Polls.

(** The number of pending rows. *)
Definition pending_count (db : Store) : nat :=
  List.length (filter (status_is PENDING) db).

(** *** Reading the log *)

(** A scan of the log that pairs each claim with the run that follows it:
    [Some None] when every claimed job has been run, [Some (Some i)] when
    job [i] has been claimed and its run has not returned, [None] when the
    log is not of that shape. *)
Definition pair_event (st : option (option N)) (e : Event) : option (option N) :=
  match st, e with
  | Some None, Dequeued i => Some (Some i)
  | Some (Some i), Run i' => if N.eqb i i' then Some None else None
  | Some None, ReadAlive _ => Some None
  | Some None, Sleep1 => Some None
  | _, _ => None
  end.

Definition claimed_not_run (l : list Event) : option (option N) :=
  fold_left pair_event l (Some None).

(** Where control stands tells whether a claimed job awaits its run. *)
Definition paired (c : Config) : Prop :=
  match pc c with
  | IfQueuedJob (Some j) => claimed_not_run (log c) = Some (Some (id j))
  | Raised _ => exists i, claimed_not_run (log c) = Some (Some i)
  | _ => claimed_not_run (log c) = Some None
  end.

Definition is_claim (e : Event) : bool :=
  match e with Dequeued _ => true | _ => false end.

(** [handle] has returned or raised. *)
Definition terminal (p : PC) : bool :=
  match p with
  | Returned | Raised _ => true
  | _ => false
  end.

End Dequeue.

Module DeltasViews.

(** *** Values and collaborators of [ListCreateDeltasView.post] *)

(** What [json.load] yields.  An object is the list of the members of the
    [dict] in insertion order; the parser yields no two members with the
    same key. *)
Inductive Json : Set :=
| JNull
| JBool (b : bool)
| JNum (z : Z)
| JStr (s : string)
| JArr (items : list Json)
| JObj (members : list (string * Json)).

(** The uploaded file object found under [request.data["file"]], named
    by the bytes [json.load] reads from it.  [post] below records in the
    bucket which object is handed to [upload_fileobj]; what that call can
    still read from the object, and so stores, is followed in
    [post_stream]. *)
Definition FileObj := string.

Record Request : Set := {
  user : N;
  data_file : option FileObj
}.

(** The statuses this view gives a new delta. *)
Inductive DeltaStatus : Set := STATUS_PENDING | STATUS_UNPERMITTED.

(** The columns [post] fills in. *)
Record Delta : Set := {
  id : N;
  deltafile_id : N;
  project : string;
  content : Json;
  status : DeltaStatus
}.

(** Exceptions raised inside the [try] block. *)
Inductive Caught : Set :=
| JSONDecodeError
| SchemaValidationError
| KeyError (k : string)
| TypeError
| AttributeError
| FieldValidationError
| IntegrityError.

(** Exceptions that leave [post]. *)
Inductive ApiError : Set :=
| DoesNotExist
| EmptyContentError
| DeltafileValidationError.

(** The functions [post] calls and whose code is elsewhere: [json.load],
    the validator of [utils.get_deltafile_schema_validator()],
    [permissions_utils.can_store_delta], and the conversion a UUID column
    applies to the value assigned to it ([None] when it rejects the value). *)
Class Collaborators := {
  json_load : FileObj -> option Json;
  schema_valid : Json -> bool;
  can_store_delta : N -> Json -> Json -> string -> Json -> bool;
  to_uuid : Json -> option N
}.

(** The tables and the bucket the view reads and writes. *)
Record World : Set := {
  projects : list string;             (* ids of [Project.objects] *)
  deltas : list Delta;                (* [Delta.objects] *)
  bucket : list (string * FileObj)    (* [utils.get_s3_bucket()], newest first:
                                         key and object, the object handed
                                         over in [post], its stored bytes in
                                         [post_stream] *)
}.

(** Statements of the [try] block: they act on the delta table, and what
    they wrote stays written when one of them raises. *)
Definition Try (A : Type) : Type := list Delta -> list Delta * result Caught A.

Definition ret {A} (a : A) : Try A := fun tbl => (tbl, Ok a).

Definition throw {A} (e : Caught) : Try A := fun tbl => (tbl, Raise e).

Definition bind {A B} (m : Try A) (k : A -> Try B) : Try B :=
  fun tbl =>
    match m tbl with
    | (tbl', Ok a) => k a tbl'
    | (tbl', Raise e) => (tbl', Raise e)
    end.

Notation "x <- m ;; k" := (bind m (fun x => k))
  (at level 61, m at next level, right associativity).

Definition lift {A} (r : result Caught A) : Try A := fun tbl => (tbl, r).

Fixpoint assoc (k : string) (members : list (string * Json)) : option Json :=
  match members with
  | [] => None
  | (k', v) :: r => if String.eqb k k' then Some v else assoc k r
  end.

(** [v[k]] *)
Definition getitem (k : string) (v : Json) : result Caught Json :=
  match v with
  | JObj members =>
      match assoc k members with
      | Some x => Ok x
      | None => Raise (KeyError k)
      end
  | _ => Raise TypeError
  end.

(** [v.get(k, default)] *)
Definition get (k : string) (default : Json) (v : Json) : result Caught Json :=
  match v with
  | JObj members =>
      match assoc k members with
      | Some x => Ok x
      | None => Ok default
      end
  | _ => Raise AttributeError
  end.

Fixpoint chars (s : string) : list Json :=
  match s with
  | EmptyString => []
  | String a r => JStr (String a EmptyString) :: chars r
  end.

(** [for delta in v]: the items of a list, the keys of a dict, the
    characters of a string; other values are not iterable. *)
Definition iter (v : Json) : result Caught (list Json) :=
  match v with
  | JArr items => Ok items
  | JObj members => Ok (map (fun kv => JStr (fst kv)) members)
  | JStr s => Ok (chars s)
  | _ => Raise TypeError
  end.

Section Post.
Context {C : Collaborators}.

(** [delta_obj.save(force_insert=True)]: the row is inserted, and the insert
    fails when the table already has a row with this primary key. *)
Definition save_force_insert (d : Delta) : Try unit :=
  fun tbl =>
    if existsb (fun r => N.eqb (id r) (id d)) tbl
    then (tbl, Raise IntegrityError)
    else (tbl ++ [d], Ok tt).

Definition field (v : Json) : result Caught N :=
  match to_uuid v with
  | Some u => Ok u
  | None => Raise FieldValidationError
  end.

(** Lines 68-80, one turn of the loop over [deltas].  The values given to
    the UUID columns [id] and [deltafile_id] are converted when the row is
    written. *)
Definition store_delta (usr : N) (deltafile_id : Json) (projectid : string)
    (delta : Json) : Try unit :=
  uuid <- lift (getitem "uuid" delta) ;;
  let delta_status :=
    if can_store_delta usr uuid deltafile_id projectid delta
    then STATUS_PENDING else STATUS_UNPERMITTED in
  pk <- lift (field uuid) ;;
  dfid <- lift (field deltafile_id) ;;
  save_force_insert
    {| id := pk;
       deltafile_id := dfid;
       project := projectid;
       content := delta;
       status := delta_status |}.

(** Lines 67-80. *)
Fixpoint store_deltas (usr : N) (deltafile_id : Json) (projectid : string)
    (deltas : list Json) : Try unit :=
  match deltas with
  | [] => ret tt
  | delta :: rest =>
      _ <- store_delta usr deltafile_id projectid delta ;;
      store_deltas usr deltafile_id projectid rest
  end.

(** Lines 61-66: what is read from the file before the loop. *)
Definition read_deltafile (request_file : FileObj) : result Caught (Json * list Json) :=
  match json_load request_file with
  | None => Raise JSONDecodeError
  | Some deltafile_json =>
      if schema_valid deltafile_json then
        match getitem "id" deltafile_json with
        | Raise e => Raise e
        | Ok deltafile_id =>
            match get "deltas" (JArr []) deltafile_json with
            | Raise e => Raise e
            | Ok ds =>
                match iter ds with
                | Raise e => Raise e
                | Ok items => Ok (deltafile_id, items)
                end
            end
        end
      else Raise SchemaValidationError
  end.

(** Lines 61-80, the [try] block. *)
Definition try_block (usr : N) (projectid : string) (request_file : FileObj) : Try unit :=
  parsed <- lift (read_deltafile request_file) ;;
  store_deltas usr (fst parsed) projectid (snd parsed).

(** Line 83 *)
Definition rejected_key (projectid now : string) : string :=
  ("projects/" ++ projectid ++ "/deltas/" ++ now ++ ".json")%string.

(** Lines 51-89.  [now] is [datetime.now().isoformat()].  [Ok tt] stands
    for the empty [Response()]. *)
Definition post (request : Request) (projectid now : string) (w : World)
  : World * result ApiError unit :=
  if existsb (String.eqb projectid) (projects w) then
    match data_file request with
    | None => (w, Raise EmptyContentError)
    | Some request_file =>
        match try_block (user request) projectid request_file (deltas w) with
        | (tbl, Ok _) =>
            ({| projects := projects w; deltas := tbl; bucket := bucket w |}, Ok tt)
        | (tbl, Raise _) =>
            ({| projects := projects w;
                deltas := tbl;
                bucket := (rejected_key projectid now, request_file) :: bucket w |},
             Raise DeltafileValidationError)
        end
    end
  else (w, Raise DoesNotExist).

End Post.

(** *** The other methods of the views *)

(** The two predicates of [permissions_utils] that [has_permission] asks,
    on a user and the id of an existing project. *)
Class Permissions := {
  can_list_deltas : N -> string -> bool;
  can_upload_deltas : N -> string -> bool
}.

(** Exceptions of the queryset methods: the project lookup finds nothing,
    or the UUID column rejects the value it is compared with. *)
Inductive QueryError : Set :=
| ProjectDoesNotExist
| InvalidUUID.

(** A queryset that names no ordering comes back in an order of the
    database's choosing: all the code may rely on is that the rows are the
    matching rows, rearranged. *)
Class RowOrder := unordered : list Delta -> list Delta.

Definition row_order_spec (R : RowOrder) : Prop :=
  forall l, Permutation l (unordered l).

Section Views.
Context {C : Collaborators} {P : Permissions} {R : RowOrder}.

(** The row lines 68-80 write for [delta] when nothing raises. *)
Definition stored_as (usr : N) (dfid : Json) (projectid : string)
    (delta : Json) (r : Delta) : Prop :=
  exists uuid,
    getitem "uuid" delta = Ok uuid /\
    to_uuid uuid = Some (id r) /\
    to_uuid dfid = Some (deltafile_id r) /\
    project r = projectid /\
    content r = delta /\
    status r = if can_store_delta usr uuid dfid projectid delta
               then STATUS_PENDING else STATUS_UNPERMITTED.

(** [DeltaFilePermissions.has_permission], lines 20-29, on the method and
    the user of the request and the [projectid] parameter. *)
Definition has_permission (method : string) (usr : N) (projectid : string)
    (w : World) : result QueryError bool :=
  if existsb (String.eqb projectid) (projects w) then
    if String.eqb method "GET" then Ok (can_list_deltas usr projectid)
    else if String.eqb method "POST" then Ok (can_upload_deltas usr projectid)
    else Ok false
  else Raise ProjectDoesNotExist.

(** [ListCreateDeltasView.get_queryset], lines 91-94: a [filter] with no
    [order_by]. *)
Definition ListCreateDeltasView_get_queryset (project_id : string) (w : World)
  : result QueryError (list Delta) :=
  if existsb (String.eqb project_id) (projects w) then
    Ok (unordered (filter (fun d => String.eqb (project d) project_id) (deltas w)))
  else Raise ProjectDoesNotExist.

(** [ListDeltasByDeltafileView.get_queryset], lines 109-113: again a
    [filter] with no [order_by].  The [deltafileid] of the URL is a string;
    the UUID column converts it before comparing. *)
Definition ListDeltasByDeltafileView_get_queryset (project_id deltafileid : string)
    (w : World) : result QueryError (list Delta) :=
  if existsb (String.eqb project_id) (projects w) then
    match to_uuid (JStr deltafileid) with
    | Some u =>
        Ok (unordered
              (filter (fun d => String.eqb (project d) project_id
                                && N.eqb (deltafile_id d) u) (deltas w)))
    | None => Raise InvalidUUID
    end
  else Raise ProjectDoesNotExist.

End Views.

(** *** The file object as a stream *)

(** A file object: its bytes and the offset of the next read. *)
Record Stream : Set := { data : string; position : nat }.

(** The bytes of [s] from offset [n] on. *)
Fixpoint drop (n : nat) (s : string) : string :=
  match n, s with
  | O, _ => s
  | S n', String _ r => drop n' r
  | S _, EmptyString => EmptyString
  end.

(** [fp.read()]: the bytes from the position to the end; the position is
    then at the end. *)
Definition read (fp : Stream) : string * Stream :=
  (drop (position fp) (data fp),
   {| data := data fp;
      position := Nat.max (position fp) (String.length (data fp)) |}).

(** The file of a request as the view receives it: nothing read yet. *)
Definition uploaded_file (bytes : string) : Stream :=
  {| data := bytes; position := 0 |}.

Section PostStream.
Context {C : Collaborators}.

(** Lines 51-89 with the file object followed as a stream.  [json.load]
    (line 61) reads the object to its end and parses what it read.
    [upload_fileobj] (line 84) is handed the same object, no [seek] having
    taken place, and stores what it can still read from it. *)
Definition post_stream (usr : N) (request_file : option Stream)
    (projectid now : string) (w : World) : World * result ApiError unit :=
  if existsb (String.eqb projectid) (projects w) then
    match request_file with
    | None => (w, Raise EmptyContentError)
    | Some fp =>
        let (text, fp_read) := read fp in
        match try_block usr projectid text (deltas w) with
        | (tbl, Ok _) =>
            ({| projects := projects w; deltas := tbl; bucket := bucket w |}, Ok tt)
        | (tbl, Raise _) =>
            let (stored, _) := read fp_read in
            ({| projects := projects w;
                deltas := tbl;
                bucket := (rejected_key projectid now, stored) :: bucket w |},
             Raise DeltafileValidationError)
        end
    end
  else (w, Raise DoesNotExist).

End PostStream.

End DeltasViews.

(** * Sample data *)

Module Fixtures.
Import Dequeue.

Definition job_types : JobType :=
  {| PACKAGE := "package";
     DELTA_APPLY := "delta_apply";
     PROCESS_PROJECTFILE := "process_projectfile" |}.

(** The scenario of the specification: project 1 holds A (t=1) and B (t=2),
    project 2 holds C (t=1), all pending. *)
Definition job_A : Job := mkJob 1 "package" PENDING 1 1.
Definition job_B : Job := mkJob 2 "delta_apply" PENDING 1 2.
Definition job_C : Job := mkJob 3 "package" PENDING 2 1.
Definition scenario : Store := [job_A; job_B; job_C].

(** Three pending jobs of one free project, stored out of order. *)
Definition job_t1 : Job := mkJob 11 "package" PENDING 7 100.
Definition job_t2 : Job := mkJob 12 "package" PENDING 7 200.
Definition job_t3 : Job := mkJob 13 "package" PENDING 7 300.
Definition three_jobs : Store := [job_t3; job_t1; job_t2].

(** Project 1 has a started job and two pending ones. *)
Definition busy_store : Store :=
  [mkJob 1 "package" STARTED 1 1;
   mkJob 2 "package" PENDING 1 2;
   mkJob 3 "delta_apply" PENDING 1 3].

(** A pending job whose type is not a member of [Job.Type]. *)
Definition job_unknown : Job := mkJob 1 "export" PENDING 1 1.

(** A wrapper that marks the job finished, and one whose [run()] raises. *)
Definition wrapper_finishes : Wrapper :=
  fun _ job_id db =>
    (map (fun r => if N.eqb (id r) job_id then set_status FINISHED r else r) db, Ok tt).

Definition wrapper_raises : Wrapper :=
  fun _ job_id db =>
    (map (fun r => if N.eqb (id r) job_id then set_status STARTED r else r) db,
     Raise (WrapperError "docker")).

End Fixtures.

Module DeltaFixtures.
Import DeltasViews.
Local Open Scope string_scope.

Definition delta_1 : Json := JObj [("uuid", JNum 1); ("method", JStr "create")].
Definition delta_2 : Json := JObj [("uuid", JNum 2); ("method", JStr "patch")].

(** A file with three deltas, the third repeating the uuid of the first. *)
Definition deltafile : Json :=
  JObj [("id", JNum 7); ("deltas", JArr [delta_1; delta_2; delta_1])].

(** Stand-ins for the collaborators: the parser knows one file, every
    document passes the schema, every delta may be stored, and a UUID column
    takes non-negative numbers. *)
Definition collaborators : Collaborators :=
  {| json_load := fun f => if String.eqb f "deltafile.json" then Some deltafile else None;
     schema_valid := fun _ => true;
     can_store_delta := fun _ _ _ _ _ => true;
     to_uuid := fun v => match v with
                         | JNum z => if Z.leb 0 z then Some (Z.to_N z) else None
                         | _ => None
                         end |}.

Definition world : World :=
  {| projects := ["p1"]; deltas := []; bucket := [] |}.

Definition upload : Request := {| user := 5; data_file := Some "deltafile.json" |}.

Definition row (n : N) (delta : Json) : Delta :=
  {| id := n; deltafile_id := 7; project := "p1"; content := delta;
     status := STATUS_PENDING |}.

(** A file with two deltas of distinct uuids, a parser that knows it, a
    UUID column that also takes the string of the digit 7, and permissions
    under which user 5 alone may store and upload. *)
Definition deltafile_ok : Json :=
  JObj [("id", JNum 7); ("deltas", JArr [delta_1; delta_2])].

Definition collaborators_ok : Collaborators :=
  {| json_load := fun f => if String.eqb f "ok.json" then Some deltafile_ok else None;
     schema_valid := fun _ => true;
     can_store_delta := fun usr _ _ _ _ => N.eqb usr 5;
     to_uuid := fun v => match v with
                         | JNum z => if Z.leb 0 z then Some (Z.to_N z) else None
                         | JStr s => if String.eqb s "7" then Some 7%N else None
                         | _ => None
                         end |}.

Definition permissions : Permissions :=
  {| can_list_deltas := fun _ _ => true;
     can_upload_deltas := fun usr _ => N.eqb usr 5 |}.

Definition upload_ok : Request := {| user := 5; data_file := Some "ok.json" |}.

(** A database that lists rows newest first. *)
Definition newest_first : RowOrder := fun l => rev l.

Definition world_2 : World :=
  {| projects := ["p1"; "p2"];
     deltas := [{| id := 9; deltafile_id := 3; project := "p2";
                   content := JNull; status := STATUS_PENDING |}];
     bucket := [] |}.

End DeltaFixtures.

(** * Properties of the dequeue command *)

Module DequeueSpec.
Import Dequeue.

Lemma Status_eqb_eq (a b : Status) : Status_eqb a b = true <-> a = b.
Proof. destruct a, b; simpl; split; intro H; congruence. Qed.

Lemma status_is_true (s : Status) (j : Job) : status_is s j = true <-> status j = s.
Proof. unfold status_is. apply Status_eqb_eq. Qed.

Lemma status__in_active (j : Job) :
  status__in [QUEUED; STARTED] j = true <-> active j.
Proof.
  unfold status__in, active; simpl.
  rewrite !orb_true_iff, !Status_eqb_eq. intuition congruence.
Qed.

(** The annotation is positive exactly when the project has an active job. *)
Lemma active_jobs_count_pos (db : Store) (j : Job) :
  Nat.ltb 0 (active_jobs_count db j) = true <->
  exists k, In k db /\ project_id k = project_id j /\ active k.
Proof.
  unfold active_jobs_count.
  set (f := fun k => _).
  rewrite Nat.ltb_lt. split.
  - intro H. destruct (filter f db) as [|k r] eqn:E; [simpl in H; lia|].
    assert (Hk : In k (filter f db)) by (rewrite E; left; reflexivity).
    apply filter_In in Hk. destruct Hk as [Hin Hf]. unfold f in Hf.
    apply andb_true_iff in Hf. destruct Hf as [Hp Ha].
    exists k. repeat split; trivial.
    + now apply N.eqb_eq.
    + now apply status__in_active.
  - intros (k & Hin & Hp & Ha).
    assert (Hk : In k (filter f db)).
    { apply filter_In. split; trivial. unfold f.
      apply andb_true_iff. split; [now apply N.eqb_eq | now apply status__in_active]. }
    destruct (filter f db); [contradiction | simpl; lia].
Qed.

(** A project id is reported busy when one of its rows is pending and one
    is active. *)
Lemma busy_projects_ids_qs_In (db : Store) (p : N) :
  In p (busy_projects_ids_qs db) <->
  (exists j, In j db /\ status j = PENDING /\ project_id j = p) /\
  (exists k, In k db /\ project_id k = p /\ active k).
Proof.
  unfold busy_projects_ids_qs. rewrite in_map_iff. split.
  - intros (j & Hp & Hj). apply filter_In in Hj. destruct Hj as [Hj Hc].
    apply filter_In in Hj. destruct Hj as [Hin Hs].
    apply status_is_true in Hs. apply active_jobs_count_pos in Hc.
    subst p. split; [exists j; auto | exact Hc].
  - intros [(j & Hin & Hs & Hp) Hk]. exists j. split; trivial.
    apply filter_In. split.
    + apply filter_In. split; trivial. now apply status_is_true.
    + apply active_jobs_count_pos. now rewrite Hp.
Qed.

Lemma project_id__in_true (ids : list N) (j : Job) :
  project_id__in ids j = true <-> In (project_id j) ids.
Proof.
  unfold project_id__in. rewrite existsb_exists. split.
  - intros (x & Hx & He). apply N.eqb_eq in He. now subst.
  - intro H. exists (project_id j). split; trivial. apply N.eqb_refl.
Qed.

(** The rows that pass [filter] and [exclude]. *)
Lemma candidates_In (db : Store) (j : Job) :
  In j (candidates db) <->
  In j db /\ status j = PENDING /\
  forall k, In k db -> project_id k = project_id j -> ~ active k.
Proof.
  unfold candidates. rewrite filter_In, filter_In, status_is_true, negb_true_iff.
  split.
  - intros [[Hin Hs] Hb]. repeat split; trivial.
    intros k Hk Hp Ha.
    assert (Hbusy : project_id__in (busy_projects_ids_qs db) j = true).
    { apply project_id__in_true, busy_projects_ids_qs_In.
      split; [exists j; auto | exists k; auto]. }
    congruence.
  - intros (Hin & Hs & Hfree). repeat split; trivial.
    destruct (project_id__in (busy_projects_ids_qs db) j) eqn:E; trivial.
    apply project_id__in_true, busy_projects_ids_qs_In in E.
    destruct E as [_ (k & Hk & Hp & Ha)]. exfalso. exact (Hfree k Hk Hp Ha).
Qed.

Lemma skip_locked_nil (l : list Job) : select_for_update_skip_locked [] l = l.
Proof.
  unfold select_for_update_skip_locked. simpl.
  induction l as [|a l IH]; simpl; [reflexivity | now rewrite IH].
Qed.

Lemma skip_locked_incl (locked : list N) (l : list Job) (j : Job) :
  In j (select_for_update_skip_locked locked l) -> In j l.
Proof. unfold select_for_update_skip_locked. rewrite filter_In. tauto. Qed.

Section WithOrderBy.
Context {O : OrderBy} (HO : order_by_spec O).

Lemma order_by_In (l : list Job) (j : Job) : In j (order_by_created_at l) <-> In j l.
Proof.
  split; apply Permutation_in;
    [apply Permutation_sym |]; apply (order_by_perm HO).
Qed.

Lemma jobs_qs_incl (locked : list N) (db : Store) (j : Job) :
  In j (jobs_qs locked db) -> In j (candidates db).
Proof.
  unfold jobs_qs. intro H. apply skip_locked_incl in H. now apply order_by_In.
Qed.

Lemma jobs_qs_unlocked (db : Store) : jobs_qs [] db = order_by_created_at (candidates db).
Proof. unfold jobs_qs. apply skip_locked_nil. Qed.

Lemma order_by_nil_iff (l : list Job) : order_by_created_at l = [] <-> l = [].
Proof.
  split; intro H.
  - apply Permutation_nil. rewrite <- H. apply Permutation_sym, (order_by_perm HO).
  - subst. apply Permutation_nil, (order_by_perm HO).
Qed.

(** The head of the ordered rows is a row of least [created_at]. *)
Lemma order_by_head (l : list Job) (j : Job) :
  hd_error (order_by_created_at l) = Some j ->
  In j l /\ forall k, In k l -> (created_at j <= created_at k)%Z.
Proof.
  intro H. pose proof (order_by_sorted HO l) as Hs.
  destruct (order_by_created_at l) as [|a r] eqn:E; [discriminate|].
  simpl in H. injection H as ->.
  assert (Hin : forall k, In k l <-> In k (j :: r)).
  { intro k. rewrite <- E. symmetry. apply order_by_In. }
  split; [apply Hin; left; reflexivity|].
  intros k Hk. apply Hin in Hk. inversion Hs as [|? ? _ Hall]; subst.
  destruct Hk as [->|Hk]; [lia|].
  rewrite Forall_forall in Hall. exact (Hall k Hk).
Qed.

Lemma skip_locked_In (locked : list N) (l : list Job) (j : Job) :
  In j (select_for_update_skip_locked locked l) <-> In j l /\ unlocked locked j.
Proof.
  unfold select_for_update_skip_locked, unlocked.
  rewrite filter_In, negb_true_iff. split; intros [Hin H]; split; trivial.
  - intro Hl. assert (existsb (N.eqb (id j)) locked = true); [|congruence].
    apply existsb_exists. exists (id j). split; trivial. apply N.eqb_refl.
  - destruct (existsb (N.eqb (id j)) locked) eqn:E; trivial.
    apply existsb_exists in E. destruct E as (x & Hx & He).
    apply N.eqb_eq in He. subst x. contradiction.
Qed.

Lemma filter_StronglySorted (f : Job -> bool) (l : list Job) :
  StronglySorted created_at_le l -> StronglySorted created_at_le (filter f l).
Proof.
  induction 1 as [|a l Hs IH Hall]; simpl; [constructor|].
  destruct (f a); trivial. constructor; trivial.
  rewrite Forall_forall in *. intros x Hx. apply filter_In in Hx. now apply Hall.
Qed.

Lemma jobs_qs_In (locked : list N) (db : Store) (j : Job) :
  In j (jobs_qs locked db) <-> In j (candidates db) /\ unlocked locked j.
Proof. unfold jobs_qs. now rewrite skip_locked_In, order_by_In. Qed.

(** [jobs_qs.first()] is an unlocked candidate of least [created_at]. *)
Lemma jobs_qs_first (locked : list N) (db : Store) (j : Job) :
  hd_error (jobs_qs locked db) = Some j ->
  In j (candidates db) /\ unlocked locked j /\
  forall k, In k (candidates db) -> unlocked locked k ->
            (created_at j <= created_at k)%Z.
Proof.
  intro H.
  assert (Hs : StronglySorted created_at_le (jobs_qs locked db)).
  { apply filter_StronglySorted, (order_by_sorted HO). }
  pose proof (jobs_qs_In locked db) as Hin.
  destruct (jobs_qs locked db) as [|a r]; [discriminate|].
  simpl in H. injection H as ->.
  destruct (proj1 (Hin j) (or_introl eq_refl)) as [Hc Hu].
  repeat split; trivial.
  intros k Hk Hku.
  destruct (proj2 (Hin k) (conj Hk Hku)) as [->|Hr]; [unfold created_at_le; lia|].
  inversion Hs as [|? ? _ Hall]; subst.
  rewrite Forall_forall in Hall. exact (Hall k Hr).
Qed.

Lemma jobs_qs_first_none (locked : list N) (db : Store) :
  hd_error (jobs_qs locked db) = None <->
  forall k, In k (candidates db) -> ~ unlocked locked k.
Proof.
  pose proof (jobs_qs_In locked db) as Hin.
  destruct (jobs_qs locked db) as [|a r]; simpl; split; intro H.
  - intros k Hk Hu. exact (proj2 (Hin k) (conj Hk Hu)).
  - reflexivity.
  - discriminate.
  - destruct (proj1 (Hin a) (or_introl eq_refl)) as [Hc Hu].
    exfalso. exact (H a Hc Hu).
Qed.

End WithOrderBy.

(** *** [save] on a table whose primary keys are distinct *)

Lemma map_replace_other (i : N) (q : Job) (l : list Job) :
  ~ In i (map id l) ->
  map (fun r => if N.eqb (id r) i then q else r) l = l.
Proof.
  induction l as [|a l IH]; simpl; intro H; [reflexivity|].
  destruct (N.eqb_spec (id a) i) as [E|E].
  - exfalso. apply H. now left.
  - f_equal. apply IH. intro Hin. apply H. now right.
Qed.

Lemma id_set_status (s : Status) (j : Job) : id (set_status s j) = id j.
Proof. reflexivity. Qed.

Lemma save_row (s : Status) (j : Job) (l1 l2 : list Job) :
  NoDup (map id (l1 ++ j :: l2)) ->
  save (set_status s j) (l1 ++ j :: l2) = l1 ++ set_status s j :: l2.
Proof.
  intro Hnd. unfold save.
  assert (Hex : existsb (fun r => N.eqb (id r) (id (set_status s j))) (l1 ++ j :: l2) = true).
  { apply existsb_exists. exists j. split; [apply in_elt | apply N.eqb_refl]. }
  rewrite Hex, map_app. simpl. rewrite N.eqb_refl.
  rewrite map_app in Hnd. simpl in Hnd.
  pose proof (NoDup_remove_2 _ _ _ Hnd) as Hnot.
  rewrite in_app_iff in Hnot.
  rewrite !map_replace_other; trivial; tauto.
Qed.

(** *** The two sample databases honour [order_by] *)

Lemma insert_by_perm (before : Z -> Z -> bool) (j : Job) (l : list Job) :
  Permutation (j :: l) (insert_by before j l).
Proof.
  induction l as [|k r IH]; simpl; [reflexivity|].
  destruct (before (created_at j) (created_at k)); [reflexivity|].
  etransitivity; [apply perm_swap|]. now constructor.
Qed.

Lemma insert_by_sorted (before : Z -> Z -> bool) (j : Job) (l : list Job) :
  total_before before ->
  StronglySorted created_at_le l ->
  StronglySorted created_at_le (insert_by before j l).
Proof.
  intros Ht. induction 1 as [|k r Hs IH Hall]; simpl.
  - repeat constructor.
  - destruct (before (created_at j) (created_at k)) eqn:E.
    + apply (Ht _ _) in E. constructor; [now constructor|].
      constructor; trivial.
      rewrite Forall_forall in *. intros x Hx.
      specialize (Hall x Hx). unfold created_at_le in *. lia.
    + apply (Ht _ _) in E. constructor; trivial.
      rewrite Forall_forall in *. intros x Hx.
      apply (Permutation_in _ (Permutation_sym (insert_by_perm before j r))) in Hx.
      destruct Hx as [->|Hx]; [exact E | now apply Hall].
Qed.

Lemma sort_by_spec (before : Z -> Z -> bool) :
  total_before before -> order_by_spec (sort_by before).
Proof.
  intro Ht. split; intro l; unfold order_by_created_at, sort_by;
    induction l as [|a l IH]; simpl.
  - constructor.
  - etransitivity; [|apply insert_by_perm]. now constructor.
  - constructor.
  - now apply insert_by_sorted.
Qed.

Lemma table_order_spec : order_by_spec table_order.
Proof.
  apply sort_by_spec. intros a b. split; intro H.
  - now apply Z.leb_le.
  - apply Z.leb_gt in H. lia.
Qed.

Lemma reverse_order_spec : order_by_spec reverse_order.
Proof.
  apply sort_by_spec. intros a b. split; intro H.
  - apply Z.ltb_lt in H. lia.
  - now apply Z.ltb_ge.
Qed.

(** *** The candidate set *)

Lemma spec_busy_project_ids_In (db : Store) (p : N) :
  In p (spec_busy_project_ids db) <-> exists k, In k db /\ project_id k = p /\ active k.
Proof.
  unfold spec_busy_project_ids. rewrite in_map_iff. split.
  - intros (k & Hp & Hk). apply filter_In in Hk. destruct Hk as [Hin Ha].
    exists k. repeat split; trivial. now apply status__in_active.
  - intros (k & Hin & Hp & Ha). exists k. split; trivial.
    apply filter_In. split; trivial. now apply status__in_active.
Qed.

Lemma filter_filter (f g : Job -> bool) (l : list Job) :
  filter g (filter f l) = filter (fun j => f j && g j) l.
Proof.
  induction l as [|a l IH]; simpl; [reflexivity|].
  destruct (f a); simpl; [destruct (g a)|]; now rewrite IH.
Qed.

(** The code computes the candidate set the specification describes. *)
Lemma candidates_refines_spec (db : Store) : candidates db = spec_candidates db.
Proof.
  unfold candidates, spec_candidates. rewrite filter_filter.
  apply filter_ext_in. intros j Hj.
  destruct (status_is PENDING j) eqn:Hs; simpl; trivial. f_equal.
  apply eq_true_iff_eq. rewrite project_id__in_true, busy_projects_ids_qs_In.
  rewrite existsb_exists. split.
  - intros [_ (k & Hk & Hp & Ha)]. exists (project_id j). split; [|apply N.eqb_refl].
    apply spec_busy_project_ids_In. eauto.
  - intros (p & Hp & He). apply N.eqb_eq in He. subst p.
    apply spec_busy_project_ids_In in Hp. split; trivial.
    exists j. repeat split; trivial. now apply status_is_true.
Qed.

(** C1 (busy-project isolation).  Whatever rows other transactions hold
    locked, a project with a queued or started job has no row in the
    queryset the scheduler selects from, however many pending jobs it has;
    and when no row is locked elsewhere the queryset holds exactly the
    pending jobs whose project has no queued or started job: it is a
    rearrangement of the candidate set as the specification words it. *)
Theorem busy_project_isolation (O : OrderBy) (HO : order_by_spec O) (db : Store) :
  (forall (locked : list N) (p : N),
      (exists k, In k db /\ project_id k = p /\ active k) ->
      filter (fun j => N.eqb (project_id j) p) (jobs_qs locked db) = []) /\
  Permutation (jobs_qs [] db) (spec_candidates db) /\
  (forall j,
      In j (jobs_qs [] db) <->
      In j db /\ status j = PENDING /\
      forall k, In k db -> project_id k = project_id j ->
                status k <> QUEUED /\ status k <> STARTED).
Proof.
  split; [|split].
  - intros locked p (k & Hk & Hp & Ha).
    destruct (filter _ (jobs_qs locked db)) as [|j r] eqn:E; trivial.
    assert (Hj : In j (filter (fun j => N.eqb (project_id j) p) (jobs_qs locked db)))
      by (rewrite E; now left).
    apply filter_In in Hj. destruct Hj as [Hj Hpj]. apply N.eqb_eq in Hpj.
    apply (jobs_qs_incl HO), candidates_In in Hj.
    destruct Hj as (_ & _ & Hfree). exfalso. apply (Hfree k Hk); congruence.
  - rewrite (jobs_qs_unlocked db), <- candidates_refines_spec.
    apply Permutation_sym, (order_by_perm HO).
  - intro j. rewrite (jobs_qs_unlocked db), (order_by_In HO), candidates_In.
    unfold active. split; intros (Hin & Hs & Hfree); repeat split; trivial.
    + intro E. apply (Hfree k H H0). now left.
    + intro E. apply (Hfree k H H0). now right.
    + intros k Hk Hp [E|E]; destruct (Hfree k Hk Hp); contradiction.
Qed.

Lemma busy_project_isolation_witness :
  filter (fun j => N.eqb (project_id j) 1)
         (@jobs_qs table_order [] Fixtures.busy_store) = [] /\
  Permutation (@jobs_qs table_order [] Fixtures.scenario)
              (spec_candidates Fixtures.scenario).
Proof.
  split.
  - apply (proj1 (busy_project_isolation table_order table_order_spec Fixtures.busy_store) [] 1%N).
    exists (mkJob 1 "package" STARTED 1 1).
    split; [now left | split; [reflexivity | now right]].
  - apply (proj1 (proj2 (busy_project_isolation table_order table_order_spec Fixtures.scenario))).
Defined.

(** *** First in, first out *)

Lemma atomic_block_some (O : OrderBy) (locked : list N) (db : Store) (j : Job) :
  hd_error (jobs_qs locked db) = Some j ->
  atomic_block locked db = (Some (set_status QUEUED j), save (set_status QUEUED j) db).
Proof. unfold atomic_block. now intros ->. Qed.

Lemma atomic_block_none (O : OrderBy) (locked : list N) (db : Store) :
  hd_error (jobs_qs locked db) = None -> atomic_block locked db = (None, db).
Proof. unfold atomic_block. now intros ->. Qed.

(** Counterexample to C2.  Three pending jobs of one free project are all
    candidates; with the row of the oldest, created at 100, locked by
    another transaction, the atomic block claims the job created at 200,
    which is not of least [created_at] in the candidate set. *)
Lemma locked_oldest_candidate_is_passed_over :
  candidates Fixtures.three_jobs <> [] /\
  In Fixtures.job_t1 (candidates Fixtures.three_jobs) /\
  fst (@atomic_block table_order [11%N] Fixtures.three_jobs)
  = Some (set_status QUEUED Fixtures.job_t2) /\
  (created_at Fixtures.job_t1 < created_at (set_status QUEUED Fixtures.job_t2))%Z.
Proof.
  split; [discriminate|]. split; [simpl; auto|]. split; reflexivity.
Qed.

(** C2, amended (FIFO among the unlocked candidates).  Whatever rows other
    transactions hold locked, when some candidate is not locked the atomic
    block claims a candidate that is not locked and whose [created_at] is
    least among the candidates that are not locked, and hands it back with
    status queued; when no candidate is locked that is a candidate of least
    [created_at] in the whole candidate set.  In particular, on a table
    made of three pending jobs of one project with [created_at]
    t1 < t2 < t3, in whatever order they are stored, it claims the job
    created at t1 as long as the row of that job is not locked. *)
Theorem fifo_among_unlocked_candidates (O : OrderBy) (HO : order_by_spec O) :
  (forall (locked : list N) (db : Store),
      (exists k, In k (candidates db) /\ ~ In (id k) locked) ->
      exists j,
        fst (atomic_block locked db) = Some (set_status QUEUED j) /\
        In j (candidates db) /\ ~ In (id j) locked /\
        forall k, In k (candidates db) -> ~ In (id k) locked ->
                  (created_at j <= created_at k)%Z) /\
  (forall (locked : list N) (db : Store),
      candidates db <> [] ->
      (forall k, In k (candidates db) -> ~ In (id k) locked) ->
      exists j,
        fst (atomic_block locked db) = Some (set_status QUEUED j) /\
        In j (candidates db) /\
        forall k, In k (candidates db) -> (created_at j <= created_at k)%Z) /\
  (forall (locked : list N) (db : Store) (a b c : Job),
      Permutation db [a; b; c] ->
      status a = PENDING -> status b = PENDING -> status c = PENDING ->
      project_id a = project_id b -> project_id b = project_id c ->
      (created_at a < created_at b < created_at c)%Z ->
      ~ In (id a) locked ->
      fst (atomic_block locked db) = Some (set_status QUEUED a)).
Proof.
  assert (Hgen : forall (locked : list N) (db : Store),
      (exists k, In k (candidates db) /\ ~ In (id k) locked) ->
      exists j,
        fst (atomic_block locked db) = Some (set_status QUEUED j) /\
        In j (candidates db) /\ ~ In (id j) locked /\
        forall k, In k (candidates db) -> ~ In (id k) locked ->
                  (created_at j <= created_at k)%Z).
  { intros locked db (k & Hk & Hu).
    destruct (hd_error (jobs_qs locked db)) as [j|] eqn:E.
    - exists j. rewrite (atomic_block_some _ _ _ _ E). simpl.
      destruct (jobs_qs_first HO _ _ _ E) as (Hc & Hj & Hmin). auto.
    - exfalso. exact (proj1 (jobs_qs_first_none HO locked db) E k Hk Hu). }
  split; [exact Hgen|]. split.
  - intros locked db Hne Hfree.
    destruct (candidates db) as [|k0 r] eqn:Ec; [contradiction|].
    destruct (Hgen locked db) as (j & Hj & Hin & _ & Hmin).
    { exists k0. rewrite Ec. split; [now left|]. apply Hfree. now left. }
    exists j. rewrite Ec in Hin, Hmin. repeat split; trivial.
    intros k Hk. apply Hmin; trivial. now apply Hfree.
  - intros locked db a b c Hperm Ha Hb Hc Hab Hbc Hlt Hua.
    assert (Hdb : forall k, In k db <-> k = a \/ k = b \/ k = c).
    { intro k. split; intro H.
      - apply (Permutation_in _ Hperm) in H. simpl in H. intuition congruence.
      - apply (Permutation_in _ (Permutation_sym Hperm)). simpl. intuition congruence. }
    assert (Hcand : forall k, In k (candidates db) <-> In k db).
    { intro k. rewrite candidates_In. split; [tauto|]. intro H.
      split; trivial. split.
      - apply Hdb in H. destruct H as [->|[->| ->]]; trivial.
      - intros k' Hk' _ [E|E]; apply Hdb in Hk';
          destruct Hk' as [->|[->| ->]]; congruence. }
    assert (Hain : In a (candidates db)) by (apply Hcand, Hdb; now left).
    destruct (Hgen locked db) as (j & Hj & Hin & _ & Hmin); [eauto|].
    rewrite Hj. do 2 f_equal.
    assert (Hja : (created_at j <= created_at a)%Z) by (now apply Hmin).
    apply Hcand, Hdb in Hin. destruct Hin as [->|[->| ->]]; trivial; lia.
Qed.

Lemma fifo_among_unlocked_candidates_witness :
  (exists j,
      fst (@atomic_block table_order [11%N] Fixtures.three_jobs)
      = Some (set_status QUEUED j) /\
      In j (candidates Fixtures.three_jobs) /\ ~ In (id j) [11%N] /\
      forall k, In k (candidates Fixtures.three_jobs) -> ~ In (id k) [11%N] ->
                (created_at j <= created_at k)%Z) /\
  fst (@atomic_block table_order [13%N] Fixtures.three_jobs)
  = Some (set_status QUEUED Fixtures.job_t1).
Proof.
  split.
  - apply (proj1 (fifo_among_unlocked_candidates table_order table_order_spec)
             [11%N] Fixtures.three_jobs).
    exists Fixtures.job_t2. split; [simpl; auto|].
    simpl. intuition discriminate.
  - apply (proj2 (proj2 (fifo_among_unlocked_candidates table_order table_order_spec))
             [13%N] Fixtures.three_jobs
             Fixtures.job_t1 Fixtures.job_t2 Fixtures.job_t3);
      try reflexivity.
    + unfold Fixtures.three_jobs.
      apply (Permutation_cons_app [Fixtures.job_t1; Fixtures.job_t2] [] Fixtures.job_t3).
      reflexivity.
    + simpl. lia.
    + simpl. intuition discriminate.
Defined.

(** The scenario of the specification, second invocation: once A is
    started, project 1 is busy and the next claim is C, not B. *)
Example scenario_second_claim :
  fst (@atomic_block table_order []
         [set_status STARTED Fixtures.job_A; Fixtures.job_B; Fixtures.job_C])
  = Some (set_status QUEUED Fixtures.job_C).
Proof. reflexivity. Qed.

(** With the row of the oldest candidate locked by another transaction the
    next oldest unlocked candidate is claimed. *)
Example scenario_skip_locked :
  fst (@atomic_block table_order [11%N] Fixtures.three_jobs)
  = Some (set_status QUEUED Fixtures.job_t2).
Proof. reflexivity. Qed.

(** *** Ties *)

(** Counterexample to C9.  On the scenario of the specification, where A
    and C are both created at t=1, a database that returns tied rows in
    table order and one that returns them in the opposite order both honour
    [order_by("created_at")], and the command claims A with the first and C
    with the second: the code fixes no secondary key. *)
Lemma tie_break_left_to_database :
  order_by_spec table_order /\ order_by_spec reverse_order /\
  fst (@atomic_block table_order [] Fixtures.scenario)
  = Some (set_status QUEUED Fixtures.job_A) /\
  fst (@atomic_block reverse_order [] Fixtures.scenario)
  = Some (set_status QUEUED Fixtures.job_C) /\
  set_status QUEUED Fixtures.job_A <> set_status QUEUED Fixtures.job_C.
Proof.
  split; [exact table_order_spec|]. split; [exact reverse_order_spec|].
  repeat split; discriminate.
Qed.

Lemma atomic_block_fst (O : OrderBy) (locked : list N) (db : Store) :
  fst (atomic_block locked db)
  = option_map (set_status QUEUED) (hd_error (jobs_qs locked db)).
Proof. unfold atomic_block. now destruct (hd_error (jobs_qs locked db)). Qed.

(** C9, amended.  Two databases that honour [order_by("created_at")] agree
    on whether a job is claimed and on the [created_at] of the claimed job,
    which is the least among the unlocked candidates; they claim the same
    job whenever no two candidates share a [created_at]. *)
Theorem claim_determined_up_to_ties (O1 O2 : OrderBy)
    (H1 : order_by_spec O1) (H2 : order_by_spec O2)
    (locked : list N) (db : Store) :
  (fst (@atomic_block O1 locked db) = None <->
   fst (@atomic_block O2 locked db) = None) /\
  forall q1 q2,
    fst (@atomic_block O1 locked db) = Some q1 ->
    fst (@atomic_block O2 locked db) = Some q2 ->
    created_at q1 = created_at q2 /\
    (forall k, In k (candidates db) -> ~ In (id k) locked ->
               (created_at q1 <= created_at k)%Z) /\
    ((forall a b, In a (candidates db) -> In b (candidates db) ->
                  created_at a = created_at b -> a = b) ->
     q1 = q2).
Proof.
  rewrite !atomic_block_fst. split.
  - destruct (hd_error (@jobs_qs O1 locked db)) eqn:E1;
      destruct (hd_error (@jobs_qs O2 locked db)) eqn:E2; simpl;
      split; intro H; try discriminate; try reflexivity; exfalso.
    + apply (jobs_qs_first H1) in E1. destruct E1 as (Hc & Hu & _).
      exact (proj1 (jobs_qs_first_none H2 locked db) E2 _ Hc Hu).
    + apply (jobs_qs_first H2) in E2. destruct E2 as (Hc & Hu & _).
      exact (proj1 (jobs_qs_first_none H1 locked db) E1 _ Hc Hu).
  - intros q1 q2 E1 E2.
    destruct (hd_error (@jobs_qs O1 locked db)) as [j1|] eqn:F1; [|discriminate].
    destruct (hd_error (@jobs_qs O2 locked db)) as [j2|] eqn:F2; [|discriminate].
    simpl in E1, E2. injection E1 as <-. injection E2 as <-.
    destruct (jobs_qs_first H1 _ _ _ F1) as (Hc1 & Hu1 & Hm1).
    destruct (jobs_qs_first H2 _ _ _ F2) as (Hc2 & Hu2 & Hm2).
    pose proof (Hm1 j2 Hc2 Hu2). pose proof (Hm2 j1 Hc1 Hu1).
    assert (Heq : created_at j1 = created_at j2) by lia.
    split; [exact Heq|]. split; [exact Hm1|].
    intro Hinj. now rewrite (Hinj j1 j2 Hc1 Hc2 Heq).
Qed.

Lemma claim_determined_up_to_ties_witness :
  created_at (set_status QUEUED Fixtures.job_A)
  = created_at (set_status QUEUED Fixtures.job_C) /\
  (fst (@atomic_block table_order [] Fixtures.three_jobs) = None <->
   fst (@atomic_block reverse_order [] Fixtures.three_jobs) = None).
Proof.
  split.
  - apply (proj2 (claim_determined_up_to_ties table_order reverse_order
                    table_order_spec reverse_order_spec [] Fixtures.scenario));
      reflexivity.
  - apply (proj1 (claim_determined_up_to_ties table_order reverse_order
                    table_order_spec reverse_order_spec [] Fixtures.three_jobs)).
Defined.

(** *** What the claim writes *)

Section Loop.
Context {O : OrderBy} {T : JobType} {W : Wrapper}.
Variable single_shot : bool.

Lemma step_atomic (c : Config) :
  pc c = AtomicBlock ->
  pc (step single_shot c) = IfQueuedJob (fst (atomic_block [] (db c))) /\
  db (step single_shot c) = snd (atomic_block [] (db c)).
Proof.
  intro H. unfold step. rewrite H.
  destruct (atomic_block [] (db c)) as [q db']. split; reflexivity.
Qed.

Lemma step_db_frame (c : Config) :
  pc c <> AtomicBlock ->
  (forall j, pc c <> IfQueuedJob (Some j)) ->
  db (step single_shot c) = db c.
Proof.
  intros Ha Hr. unfold step.
  destruct (pc c) as [| |[j|]|i| | |e]; try reflexivity.
  - destruct (alive (killer c)); reflexivity.
  - contradiction.
  - exfalso. exact (Hr j eq_refl).
  - destruct single_shot; reflexivity.
  - destruct (Nat.ltb i SECONDS); [destruct (alive (killer c))|]; reflexivity.
  - destruct single_shot; reflexivity.
Qed.

Lemma step_into_atomic (c : Config) :
  pc (step single_shot c) = AtomicBlock ->
  pc c = WhileAlive /\ alive (killer c) = true.
Proof.
  unfold step. destruct (pc c) as [| |[j|]|i| | |e] eqn:E; simpl.
  - destruct (alive (killer c)); simpl; [auto | discriminate].
  - destruct (atomic_block [] (db c)); discriminate.
  - destruct (_run j (db c)) as [db' [u|e]]; discriminate.
  - destruct single_shot; discriminate.
  - destruct (Nat.ltb i SECONDS); [destruct (alive (killer c))|]; discriminate.
  - destruct single_shot; discriminate.
  - congruence.
  - congruence.
Qed.

End Loop.

(** C4 (the claim only moves pending to queued).  On a table whose primary
    keys are distinct, the atomic block either writes nothing or rewrites
    exactly one row, which was pending and differs from its old value only
    in that its status is now queued; the rows before and after it are
    untouched.  In the loop the table is written only by the atomic block
    and by the run of the claimed job, and the atomic block is entered only
    from the loop head, so one iteration claims at most one job. *)
Theorem claim_moves_pending_to_queued (O : OrderBy) (HO : order_by_spec O)
    (tbl : Store) (Hpk : NoDup (map id tbl)) :
  (forall locked,
      match atomic_block locked tbl with
      | (Some queued_job, db') =>
          exists l1 j l2,
            tbl = l1 ++ j :: l2 /\ status j = PENDING /\
            queued_job = set_status QUEUED j /\
            db' = l1 ++ queued_job :: l2
      | (None, db') => db' = tbl
      end) /\
  (forall (T : JobType) (W : Wrapper) (single_shot : bool) (c : Config),
      (pc c = AtomicBlock ->
       db (step single_shot c) = snd (atomic_block [] (db c))) /\
      (pc c <> AtomicBlock -> (forall j, pc c <> IfQueuedJob (Some j)) ->
       db (step single_shot c) = db c) /\
      (pc (step single_shot c) = AtomicBlock -> pc c = WhileAlive)).
Proof.
  split.
  - intro locked. unfold atomic_block.
    destruct (hd_error (jobs_qs locked tbl)) as [j|] eqn:E; [|reflexivity].
    destruct (jobs_qs_first HO _ _ _ E) as (Hc & _ & _).
    apply candidates_In in Hc. destruct Hc as (Hin & Hs & _).
    destruct (in_split _ _ Hin) as (l1 & l2 & ->).
    exists l1, j, l2. repeat split; trivial. now apply save_row.
  - intros T W single_shot c. split; [|split].
    + intro H. apply (step_atomic single_shot c H).
    + apply step_db_frame.
    + intro H. apply (step_into_atomic single_shot c H).
Qed.

Lemma claim_moves_pending_to_queued_witness :
  exists l1 j l2,
    Fixtures.scenario = l1 ++ j :: l2 /\ status j = PENDING /\
    set_status QUEUED Fixtures.job_A = set_status QUEUED j /\
    [set_status QUEUED Fixtures.job_A; Fixtures.job_B; Fixtures.job_C]
    = l1 ++ set_status QUEUED Fixtures.job_A :: l2.
Proof.
  assert (Hpk : NoDup (map id Fixtures.scenario)).
  { repeat constructor; simpl; intuition discriminate. }
  exact (proj1 (claim_moves_pending_to_queued table_order table_order_spec
                  Fixtures.scenario Hpk) []).
Defined.

(** *** Empty polls *)

Lemma atomic_block_no_candidates (O : OrderBy) (HO : order_by_spec O)
    (locked : list N) (tbl : Store) :
  candidates tbl = [] -> atomic_block locked tbl = (None, tbl).
Proof.
  intro H. apply atomic_block_none. unfold jobs_qs.
  now rewrite H, (proj2 (order_by_nil_iff HO [])).
Qed.

Lemma steps_succ_r {O : OrderBy} {T : JobType} {W : Wrapper}
    (single_shot : bool) (n : nat) (c : Config) :
  steps single_shot (S n) c = steps single_shot n (step single_shot c).
Proof. unfold steps. apply Nat.iter_succ_r. Qed.

Ltac run_statements :=
  repeat (rewrite steps_succ_r;
          unfold step at 1; cbn [pc db killer log alive goto Nat.ltb Nat.leb SECONDS]).

Lemma concat_repeat_snoc (x : list Event) (n : nat) :
  List.concat (repeat x n) ++ x = List.concat (repeat x (S n)).
Proof.
  induction n as [|n IH]; simpl in *.
  - now rewrite app_nil_r.
  - now rewrite <- app_assoc, IH.
Qed.

(** One idle iteration in continuous mode: ten statements, back at the loop
    head with the table as it was. *)
Lemma idle_iteration {O : OrderBy} {T : JobType} {W : Wrapper}
    (HO : order_by_spec O) (tbl : Store) (l : list Event) :
  candidates tbl = [] ->
  steps false 10 {| pc := WhileAlive; db := tbl;
                    killer := GracefulKiller_init; log := l |}
  = {| pc := WhileAlive; db := tbl; killer := GracefulKiller_init;
       log := l ++ idle_iteration_log |}.
Proof.
  intro H. unfold GracefulKiller_init.
  rewrite steps_succ_r. unfold step at 1. cbn [pc db killer log alive goto].
  rewrite steps_succ_r. unfold step at 1. cbn [pc db killer log alive goto].
  rewrite (atomic_block_no_candidates O HO [] tbl H).
  run_statements. unfold steps, goto. cbn [Nat.iter pc db killer log].
  f_equal. rewrite app_nil_r, <- !app_assoc. reflexivity.
Qed.

(** C8 (idempotent empty poll).  When the candidate set is empty the atomic
    block reports no job and hands the table back as it was, whichever rows
    are locked elsewhere.  However the loop is then driven, by statements
    and signals in any number and order, the table stays as it was and
    neither a claim nor a run is logged; in continuous mode each round of
    ten statements is one more empty poll followed by the idle sleep. *)
Theorem empty_poll_is_idempotent (O : OrderBy) (HO : order_by_spec O)
    (tbl : Store) (Hnone : candidates tbl = []) :
  (forall locked, atomic_block locked tbl = (None, tbl)) /\
  (forall (T : JobType) (W : Wrapper) (single_shot : bool) (ins : list Input),
      let c := run_inputs single_shot (handle tbl) ins in
      db c = tbl /\
      forall i, ~ In (Dequeued i) (log c) /\ ~ In (Run i) (log c)) /\
  (forall (T : JobType) (W : Wrapper) (n : nat),
      Nat.iter n (steps false 10) (handle tbl)
      = {| pc := WhileAlive; db := tbl; killer := GracefulKiller_init;
           log := List.concat (repeat idle_iteration_log n) |}).
Proof.
  split; [|split].
  - intro locked. now apply atomic_block_no_candidates.
  - intros T W single_shot ins.
    assert (Hinv : forall c,
        (db c = tbl /\ (forall j, pc c <> IfQueuedJob (Some j)) /\
         forall i, ~ In (Dequeued i) (log c) /\ ~ In (Run i) (log c)) ->
        let c' := run_inputs single_shot c ins in
        db c' = tbl /\ forall i, ~ In (Dequeued i) (log c') /\ ~ In (Run i) (log c')).
    { induction ins as [|i ins IH]; intros c (Hdb & Hpc & Hlog); simpl.
      - auto.
      - apply IH. destruct i; simpl; [|repeat split; trivial; apply Hlog..].
        assert (Hgoto : forall p evs,
            (forall j, p <> IfQueuedJob (Some j)) ->
            (forall e, In e evs -> exists b, e = ReadAlive b \/ e = Sleep1) ->
            db (goto p evs c) = tbl /\
            (forall j, pc (goto p evs c) <> IfQueuedJob (Some j)) /\
            forall i, ~ In (Dequeued i) (log (goto p evs c)) /\
                      ~ In (Run i) (log (goto p evs c))).
        { intros p evs Hp Hevs. repeat split; simpl; trivial;
            rewrite in_app_iff; intros [Hi|Hi];
            try (now apply (Hlog i) in Hi);
            destruct (Hevs _ Hi) as (b & [E|E]); discriminate. }
        unfold step. destruct (pc c) as [| |[j|]|k| | |e] eqn:E.
        + destruct (alive (killer c)); apply Hgoto; try discriminate;
            intros e [<-|[]]; eexists; left; reflexivity.
        + rewrite Hdb, (atomic_block_no_candidates O HO [] tbl Hnone).
          repeat split; simpl; try discriminate;
            rewrite app_nil_r; apply Hlog.
        + exfalso. exact (Hpc j eq_refl).
        + destruct single_shot; apply Hgoto; try discriminate; intros e [].
        + destruct (Nat.ltb k SECONDS); [destruct (alive (killer c))|];
            apply Hgoto; try discriminate.
          * intros e [<-|[<-|[]]]; exists true; auto.
          * intros e [<-|[]]; exists false; auto.
          * intros e [].
        + destruct single_shot; apply Hgoto; try discriminate; intros e [].
        + split; [exact Hdb|]. split; [|exact Hlog]. intro; congruence.
        + split; [exact Hdb|]. split; [|exact Hlog]. intro; congruence. }
    apply Hinv. simpl. repeat split; trivial; try discriminate; intros [].
  - intros T W n. induction n as [|n IH]; [reflexivity|].
    rewrite Nat.iter_succ, IH, (idle_iteration HO); trivial.
    f_equal. apply concat_repeat_snoc.
Qed.

Lemma empty_poll_is_idempotent_witness :
  @atomic_block table_order [] Fixtures.busy_store = (None, Fixtures.busy_store) /\
  Nat.iter 3 (@steps table_order Fixtures.job_types Fixtures.wrapper_finishes false 10)
           (handle Fixtures.busy_store)
  = {| pc := WhileAlive; db := Fixtures.busy_store; killer := GracefulKiller_init;
       log := List.concat (repeat idle_iteration_log 3) |}.
Proof.
  assert (Hnone : candidates Fixtures.busy_store = []) by reflexivity.
  split.
  - apply (proj1 (empty_poll_is_idempotent table_order table_order_spec
                    Fixtures.busy_store Hnone) []).
  - apply (proj2 (proj2 (empty_poll_is_idempotent table_order table_order_spec
                           Fixtures.busy_store Hnone))
             Fixtures.job_types Fixtures.wrapper_finishes 3).
Defined.

(** *** Dispatch on the job type *)

Lemma dispatch_unknown {T : JobType} (ty : string) :
  dispatch ty = Raise (NotImplementedError ("Unknown job type " ++ ty)) <->
  ~ known_type ty.
Proof.
  unfold dispatch, job_run_classes, dict_set, known_type. simpl.
  destruct (String.eqb_spec ty PROCESS_PROJECTFILE);
    [split; [discriminate | tauto]|].
  destruct (String.eqb_spec ty DELTA_APPLY);
    [split; [discriminate | tauto]|].
  destruct (String.eqb_spec ty PACKAGE);
    [split; [discriminate | tauto]|].
  split; [tauto | reflexivity].
Qed.

(** C5 (dispatch table).  With the three members of [Job.Type] pairwise
    distinct, [_run] picks [PackageJobRun] for package, [DeltaApplyJobRun]
    for delta-apply and [ProcessProjectfileJobRun] for process-projectfile;
    on every type string it either picks a class or raises
    [NotImplementedError], and it raises exactly when the type is none of
    the three; [_run] then runs the picked class on the job id, or passes
    the error on without touching the table. *)
Theorem dispatch_by_job_type (T : JobType)
    (Hdistinct : NoDup [PACKAGE; DELTA_APPLY; PROCESS_PROJECTFILE]) :
  dispatch PACKAGE = Ok PackageJobRun /\
  dispatch DELTA_APPLY = Ok DeltaApplyJobRun /\
  dispatch PROCESS_PROJECTFILE = Ok ProcessProjectfileJobRun /\
  (forall ty,
      (exists job_run_class, dispatch ty = Ok job_run_class) \/
      dispatch ty = Raise (NotImplementedError ("Unknown job type " ++ ty))) /\
  (forall ty,
      dispatch ty = Raise (NotImplementedError ("Unknown job type " ++ ty)) <->
      ty <> PACKAGE /\ ty <> DELTA_APPLY /\ ty <> PROCESS_PROJECTFILE) /\
  (forall (W : Wrapper) (job : Job) (tbl : Store),
      _run job tbl =
      match dispatch (type job) with
      | Ok job_run_class => job_run job_run_class (id job) tbl
      | Raise e => (tbl, Raise e)
      end).
Proof.
  inversion Hdistinct as [|? ? Hp Hrest]; subst.
  inversion Hrest as [|? ? Hd _]; subst. simpl in Hp, Hd.
  assert (Hpd : PACKAGE <> DELTA_APPLY) by intuition congruence.
  assert (Hpf : PACKAGE <> PROCESS_PROJECTFILE) by intuition congruence.
  assert (Hdf : DELTA_APPLY <> PROCESS_PROJECTFILE) by intuition congruence.
  unfold dispatch, job_run_classes, dict_set. simpl.
  repeat split.
  - destruct (String.eqb_spec PACKAGE PROCESS_PROJECTFILE); [contradiction|].
    destruct (String.eqb_spec PACKAGE DELTA_APPLY); [contradiction|].
    now rewrite String.eqb_refl.
  - destruct (String.eqb_spec DELTA_APPLY PROCESS_PROJECTFILE); [contradiction|].
    now rewrite String.eqb_refl.
  - now rewrite String.eqb_refl.
  - intro ty.
    destruct (String.eqb ty PROCESS_PROJECTFILE); [left; eauto|].
    destruct (String.eqb ty DELTA_APPLY); [left; eauto|].
    destruct (String.eqb ty PACKAGE); [left; eauto|]. now right.
  - apply (proj1 (dispatch_unknown ty)) in H. unfold known_type in H. tauto.
  - apply (proj1 (dispatch_unknown ty)) in H. unfold known_type in H. tauto.
  - apply (proj1 (dispatch_unknown ty)) in H. unfold known_type in H. tauto.
  - intros (H1 & H2 & H3). apply (proj2 (dispatch_unknown ty)).
    unfold known_type. tauto.
Qed.

Lemma dispatch_by_job_type_witness :
  @dispatch Fixtures.job_types "delta_apply" = Ok DeltaApplyJobRun /\
  ((exists job_run_class, @dispatch Fixtures.job_types "export" = Ok job_run_class) \/
   @dispatch Fixtures.job_types "export"
   = Raise (NotImplementedError "Unknown job type export")).
Proof.
  assert (Hd : NoDup [@PACKAGE Fixtures.job_types; @DELTA_APPLY Fixtures.job_types;
                      @PROCESS_PROJECTFILE Fixtures.job_types]).
  { repeat constructor; simpl; intuition discriminate. }
  split.
  - apply (proj1 (proj2 (dispatch_by_job_type Fixtures.job_types Hd))).
  - apply (proj1 (proj2 (proj2 (proj2 (dispatch_by_job_type Fixtures.job_types Hd))))
             "export"%string).
Defined.

(** *** Exceptions raised by the run of a claimed job *)

Section LoopFacts.
Context {O : OrderBy} {T : JobType} {W : Wrapper}.
Variable single_shot : bool.

Lemma step_terminal (c : Config) :
  (pc c = Returned \/ exists e, pc c = Raised e) -> step single_shot c = c.
Proof. unfold step. intros [H|(e & H)]; now rewrite H. Qed.

(** Once an exception has left [handle] nothing more happens. *)
Lemma run_inputs_raised (ins : list Input) (c : Config) (e : Exn) :
  pc c = Raised e -> same_view (run_inputs single_shot c ins) c.
Proof.
  revert c. induction ins as [|i ins IH]; intros c H; simpl.
  - repeat split.
  - destruct i; simpl.
    + rewrite step_terminal; eauto.
    + destruct (IH (signalled c) H) as (H1 & H2 & H3). repeat split; assumption.
    + destruct (IH (signalled c) H) as (H1 & H2 & H3). repeat split; assumption.
Qed.

Lemma step_run_raises (c : Config) (j : Job) (tbl' : Store) (e : Exn) :
  pc c = IfQueuedJob (Some j) ->
  _run j (db c) = (tbl', Raise e) ->
  step single_shot c
  = {| pc := Raised e; db := tbl'; killer := killer c; log := log c |}.
Proof. intros Hpc Hrun. unfold step. now rewrite Hpc, Hrun. Qed.

End LoopFacts.

(** Counterexample to C3.  In continuous mode, on a table holding one
    pending job whose type is not a member of [Job.Type], the third
    statement of the loop ends [handle] with [NotImplementedError], the job
    left queued; ten statements later nothing has changed: no further poll
    takes place.  The same happens when the wrapper's [run()] raises. *)
Lemma run_failure_ends_the_loop :
  @steps table_order Fixtures.job_types Fixtures.wrapper_finishes false 3
         (handle [Fixtures.job_unknown])
  = {| pc := Raised (NotImplementedError "Unknown job type export");
       db := [set_status QUEUED Fixtures.job_unknown];
       killer := GracefulKiller_init;
       log := [ReadAlive true; Dequeued 1] |} /\
  @steps table_order Fixtures.job_types Fixtures.wrapper_finishes false 13
         (handle [Fixtures.job_unknown])
  = @steps table_order Fixtures.job_types Fixtures.wrapper_finishes false 3
           (handle [Fixtures.job_unknown]) /\
  @steps table_order Fixtures.job_types Fixtures.wrapper_raises false 13
         (handle Fixtures.scenario)
  = {| pc := Raised (WrapperError "docker");
       db := [set_status STARTED Fixtures.job_A; Fixtures.job_B; Fixtures.job_C];
       killer := GracefulKiller_init;
       log := [ReadAlive true; Dequeued 1] |}.
Proof. repeat split; reflexivity. Qed.

(** C3, amended.  The dequeue command catches nothing.  When the run of the
    claimed job raises, the exception leaves [handle] at that statement:
    the table is as the run left it, nothing is logged, and whatever
    statements or signals follow change neither of them, so no later poll
    takes place.  A job whose type is no member of [Job.Type] raises in this
    way, with [NotImplementedError] and with the table as the claim left
    it. *)
Theorem run_failure_leaves_handle (O : OrderBy) (T : JobType) (W : Wrapper)
    (single_shot : bool) (c : Config) (j : Job)
    (Hpc : pc c = IfQueuedJob (Some j)) :
  (forall (tbl' : Store) (e : Exn) (ins : list Input),
      _run j (db c) = (tbl', Raise e) ->
      let c' := run_inputs single_shot c (Tick :: ins) in
      pc c' = Raised e /\ db c' = tbl' /\ log c' = log c) /\
  (forall ins : list Input,
      ~ known_type (type j) ->
      let c' := run_inputs single_shot c (Tick :: ins) in
      pc c' = Raised (NotImplementedError ("Unknown job type " ++ type j)) /\
      db c' = db c /\ log c' = log c).
Proof.
  assert (Hgen : forall (tbl' : Store) (e : Exn) (ins : list Input),
      _run j (db c) = (tbl', Raise e) ->
      let c' := run_inputs single_shot c (Tick :: ins) in
      pc c' = Raised e /\ db c' = tbl' /\ log c' = log c).
  { intros tbl' e ins Hrun. simpl.
    rewrite (step_run_raises single_shot c j tbl' e Hpc Hrun).
    exact (run_inputs_raised single_shot ins
             {| pc := Raised e; db := tbl'; killer := killer c; log := log c |}
             e eq_refl). }
  split; [exact Hgen|].
  intros ins Hunknown. apply Hgen.
  unfold _run. now rewrite (proj2 (dispatch_unknown (type j)) Hunknown).
Qed.

Lemma run_failure_leaves_handle_witness :
  let c := {| pc := IfQueuedJob (Some (set_status QUEUED Fixtures.job_unknown));
              db := [set_status QUEUED Fixtures.job_unknown];
              killer := GracefulKiller_init;
              log := [ReadAlive true; Dequeued 1] |} in
  let c' := @run_inputs table_order Fixtures.job_types Fixtures.wrapper_finishes
              false c [Tick; Tick; SIGTERM; Tick] in
  pc c' = Raised (NotImplementedError "Unknown job type export") /\
  db c' = db c /\ log c' = log c.
Proof.
  intros c.
  apply (proj2 (run_failure_leaves_handle table_order Fixtures.job_types
                  Fixtures.wrapper_finishes false c
                  (set_status QUEUED Fixtures.job_unknown) eq_refl)
           [Tick; SIGTERM; Tick]).
  unfold known_type. simpl. intuition discriminate.
Defined.

(** *** Where the flag is read *)

Section Flag.
Context {O : OrderBy} {T : JobType} {W : Wrapper}.

Lemma past_loop_head_no_check (p : PC) :
  past_loop_head p = true -> check_point p = false.
Proof. destruct p; simpl; congruence. Qed.

(** A statement that is no check point does the same whatever the flag. *)
Lemma step_same_view (single_shot : bool) (c c' : Config) :
  same_view c c' -> check_point (pc c) = false ->
  same_view (step single_shot c) (step single_shot c').
Proof.
  destruct c as [p d k l], c' as [p' d' k' l'].
  intros (Hp & Hd & Hl) Hc. simpl in *. subst p' d' l'.
  unfold step. simpl. destruct p as [| |[j|]|i| | |e]; simpl in *.
  - discriminate.
  - destruct (atomic_block [] d). repeat split.
  - destruct (_run j d) as [d' [u|e]]; repeat split.
  - destruct single_shot; repeat split.
  - rewrite Hc. repeat split.
  - destruct single_shot; repeat split.
  - repeat split.
  - repeat split.
Qed.

Lemma step_killer (single_shot : bool) (c : Config) :
  killer (step single_shot c) = killer c.
Proof.
  unfold step. destruct (pc c) as [| |[j|]|i| | |e]; simpl; trivial.
  - now destruct (alive (killer c)).
  - now destruct (atomic_block [] (db c)).
  - now destruct (_run j (db c)) as [d' [u|e]].
  - now destruct single_shot.
  - destruct (Nat.ltb i SECONDS); [destruct (alive (killer c))|]; reflexivity.
  - now destruct single_shot.
Qed.

(** In single-shot mode control never comes back to a check point. *)
Lemma step_past_loop_head (c : Config) :
  past_loop_head (pc c) = true -> past_loop_head (pc (step true c)) = true.
Proof.
  unfold step. destruct (pc c) as [| |[j|]|i| | |e] eqn:E; simpl; try congruence.
  - now destruct (atomic_block [] (db c)).
  - now destruct (_run j (db c)) as [d' [u|e]].
  - now rewrite E.
  - now rewrite E.
Qed.

Lemma run_inputs_single_shot (ins : list Input) (c c' : Config) :
  same_view c c' -> past_loop_head (pc c) = true ->
  same_view (run_inputs true c ins) (steps true (ticks ins) c').
Proof.
  revert c c'. induction ins as [|i ins IH]; intros c c' Hv Hp.
  - exact Hv.
  - destruct i.
    + change (same_view (run_inputs true (step true c) ins)
                        (steps true (S (ticks ins)) c')).
      rewrite steps_succ_r. apply IH.
      * apply step_same_view; [exact Hv | now apply past_loop_head_no_check].
      * now apply step_past_loop_head.
    + apply (IH (signalled c) c'); [|exact Hp].
      destruct Hv as (H1 & H2 & H3). repeat split; assumption.
    + apply (IH (signalled c) c'); [|exact Hp].
      destruct Hv as (H1 & H2 & H3). repeat split; assumption.
Qed.

Lemma steps_terminal (single_shot : bool) (n : nat) (c : Config) :
  pc c = Returned -> steps single_shot n c = c.
Proof.
  intro H. induction n as [|n IH]; [reflexivity|].
  rewrite steps_succ_r, step_terminal; auto.
Qed.

Lemma steps_ge (single_shot : bool) (k n : nat) (c : Config) :
  k <= n -> pc (steps single_shot k c) = Returned ->
  steps single_shot n c = steps single_shot k c.
Proof.
  intros Hle H. replace n with ((n - k) + k) by lia.
  unfold steps at 1. rewrite Nat.iter_add. now apply steps_terminal.
Qed.

(** Once the flag is down further signals change nothing. *)
Lemma run_inputs_flag_down (single_shot : bool) (ins : list Input) (c : Config) :
  alive (killer c) = false ->
  run_inputs single_shot c ins = steps single_shot (ticks ins) c.
Proof.
  revert c. induction ins as [|i ins IH]; intros c H; [reflexivity|].
  assert (Hs : signalled c = c).
  { destruct c as [p d [a] l]. simpl in H. now subst a. }
  destruct i.
  - change (run_inputs single_shot (step single_shot c) ins
            = steps single_shot (S (ticks ins)) c).
    rewrite steps_succ_r. apply IH. now rewrite step_killer.
  - change (run_inputs single_shot (signalled c) ins
            = steps single_shot (ticks ins) c).
    rewrite Hs. now apply IH.
  - change (run_inputs single_shot (signalled c) ins
            = steps single_shot (ticks ins) c).
    rewrite Hs. now apply IH.
Qed.

End Flag.

(** C6 (single-shot mode).  With the single-shot option set and the flag
    still up when the loop is entered, [handle] returns after one iteration,
    whatever signals arrive meanwhile: when the atomic block claims a job
    and its run returns, the log shows one reading of the flag, one claim
    and one run, and the table is as the run left it; when the atomic block
    finds no job, [handle] returns after the single reading of the flag
    with the table untouched and without having slept. *)
Theorem single_shot_one_iteration (O : OrderBy) (T : JobType) (W : Wrapper)
    (tbl : Store) (ins : list Input) :
  (forall (j : Job) (tbl1 tbl2 : Store) (u : unit),
      atomic_block [] tbl = (Some j, tbl1) ->
      _run j tbl1 = (tbl2, Ok u) ->
      3 <= ticks ins ->
      let c := run_inputs true (handle tbl) (Tick :: ins) in
      pc c = Returned /\ db c = tbl2 /\
      log c = [ReadAlive true; Dequeued (id j); Run (id j)]) /\
  (fst (atomic_block [] tbl) = None ->
   2 <= ticks ins ->
   let c := run_inputs true (handle tbl) (Tick :: ins) in
   pc c = Returned /\ db c = tbl /\ log c = [ReadAlive true]).
Proof.
  set (c1 := {| pc := AtomicBlock; db := tbl;
                killer := GracefulKiller_init; log := [ReadAlive true] |}).
  assert (Hrun : same_view (run_inputs true (handle tbl) (Tick :: ins))
                           (steps true (ticks ins) c1)).
  { apply (run_inputs_single_shot ins c1 c1); repeat split. }
  split.
  - intros j tbl1 tbl2 u Hab Hok Hn.
    assert (H3 : steps true 3 c1
                 = {| pc := Returned; db := tbl2; killer := GracefulKiller_init;
                      log := [ReadAlive true; Dequeued (id j); Run (id j)] |}).
    { unfold c1.
      rewrite steps_succ_r. unfold step at 1. cbn [pc db killer log]. rewrite Hab.
      rewrite steps_succ_r. unfold step at 1. cbn [pc db killer log]. rewrite Hok.
      reflexivity. }
    rewrite (steps_ge true 3 (ticks ins) c1 Hn) in Hrun; rewrite H3 in *; trivial.
  - intros Hnone Hn.
    assert (H2 : steps true 2 c1
                 = {| pc := Returned; db := tbl; killer := GracefulKiller_init;
                      log := [ReadAlive true] |}).
    { unfold c1.
      rewrite steps_succ_r. unfold step at 1. cbn [pc db killer log].
      unfold atomic_block in *.
      destruct (hd_error (jobs_qs [] tbl)); [discriminate|].
      cbn. reflexivity. }
    rewrite (steps_ge true 2 (ticks ins) c1 Hn) in Hrun; rewrite H2 in *; trivial.
Qed.

Lemma single_shot_one_iteration_witness :
  (let c := @run_inputs table_order Fixtures.job_types Fixtures.wrapper_finishes true
              (handle Fixtures.scenario) [Tick; Tick; SIGTERM; Tick; Tick; Tick] in
   pc c = Returned /\
   db c = [set_status FINISHED Fixtures.job_A; Fixtures.job_B; Fixtures.job_C] /\
   log c = [ReadAlive true; Dequeued 1; Run 1]) /\
  (let c := @run_inputs table_order Fixtures.job_types Fixtures.wrapper_finishes true
              (handle Fixtures.busy_store) [Tick; Tick; Tick] in
   pc c = Returned /\ db c = Fixtures.busy_store /\ log c = [ReadAlive true]).
Proof.
  split.
  - apply (proj1 (single_shot_one_iteration table_order Fixtures.job_types
                    Fixtures.wrapper_finishes Fixtures.scenario
                    [Tick; SIGTERM; Tick; Tick; Tick])
             (set_status QUEUED Fixtures.job_A)
             [set_status QUEUED Fixtures.job_A; Fixtures.job_B; Fixtures.job_C]
             [set_status FINISHED Fixtures.job_A; Fixtures.job_B; Fixtures.job_C]
             tt);
      [reflexivity | reflexivity | unfold ticks; simpl; lia].
  - apply (proj2 (single_shot_one_iteration table_order Fixtures.job_types
                    Fixtures.wrapper_finishes Fixtures.busy_store [Tick; Tick]));
      [reflexivity | unfold ticks; simpl; lia].
Defined.

(** *** Graceful shutdown *)

Section Shutdown.
Context {O : OrderBy} {T : JobType} {W : Wrapper}.

(** A check point reads the flag once, first thing. *)
Lemma step_reads_flag (single_shot : bool) (c : Config) :
  check_point (pc c) = true ->
  exists evs,
    log (step single_shot c) = log c ++ ReadAlive (alive (killer c)) :: evs /\
    forall b, ~ In (ReadAlive b) evs.
Proof.
  unfold step. destruct (pc c) as [| |[j|]|i| | |e]; simpl; try discriminate.
  - intros _. destruct (alive (killer c)); exists []; split; auto.
  - intros ->. destruct (alive (killer c)).
    + exists [Sleep1]. split; [reflexivity|]. intros b [H|[]]. discriminate.
    + exists []. split; auto.
Qed.

(** No other statement reads it. *)
Lemma step_ignores_flag (single_shot : bool) (c : Config) :
  check_point (pc c) = false ->
  exists evs,
    log (step single_shot c) = log c ++ evs /\
    forall b, ~ In (ReadAlive b) evs.
Proof.
  unfold step. destruct (pc c) as [| |[j|]|i| | |e]; simpl; try discriminate.
  - intros _. destruct (atomic_block [] (db c)) as [[j|] d]; simpl.
    + exists [Dequeued (id j)]. split; [reflexivity|]. intros b [H|[]]. discriminate.
    + exists []. split; auto.
  - intros _. destruct (_run j (db c)) as [d [u|e]]; simpl.
    + exists [Run (id j)]. split; [reflexivity|]. intros b [H|[]]. discriminate.
    + exists []. split; [now rewrite app_nil_r | auto].
  - intros _. destruct single_shot; exists []; split; auto.
  - intros ->. exists []. split; auto.
  - intros _. destruct single_shot; exists []; split; auto.
  - intros _. exists []. split; [now rewrite app_nil_r | auto].
  - intros _. exists []. split; [now rewrite app_nil_r | auto].
Qed.

(** The loop is left normally only from the loop head with the flag down,
    or through one of the two [break]s of single-shot mode. *)
Lemma step_returns (single_shot : bool) (c : Config) :
  pc (step single_shot c) = Returned ->
  pc c = Returned \/
  (pc c = WhileAlive /\ alive (killer c) = false) \/
  (single_shot = true /\ (pc c = IfQueuedJob None \/ pc c = IfSingleShot)).
Proof.
  unfold step. destruct (pc c) as [| |[j|]|i| | |e] eqn:E; simpl.
  - destruct (alive (killer c)); simpl; [discriminate | auto].
  - destruct (atomic_block [] (db c)); discriminate.
  - destruct (_run j (db c)) as [d [u|e]]; discriminate.
  - destruct single_shot; simpl; [auto | discriminate].
  - destruct (Nat.ltb i SECONDS); [destruct (alive (killer c))|]; discriminate.
  - destruct single_shot; simpl; [auto | discriminate].
  - auto.
  - congruence.
Qed.

(** The idle sleep when a signal arrives after [k] of its seconds. *)
Lemma sleep_interrupted (c : Config) (k : nat) :
  pc c = ForSleep 0 -> alive (killer c) = true -> k <= SECONDS ->
  run_inputs false c (repeat Tick k ++ SIGTERM :: repeat Tick (SECONDS - k + 3))
  = {| pc := Returned; db := db c; killer := _kill (killer c);
       log := log c ++ List.concat (repeat [ReadAlive true; Sleep1] k)
                    ++ repeat (ReadAlive false) (SECONDS - k)
                    ++ [ReadAlive false] |}.
Proof.
  destruct c as [p d [a] l]. simpl. intros -> -> Hk. unfold SECONDS in *.
  do 6 (destruct k as [|k]; [cbn; unfold goto; cbn; rewrite <- ?app_assoc, ?app_nil_r; reflexivity|]).
  lia.
Qed.

(** An iteration whose atomic block is about to run when the flag goes
    down completes the claim and the run before the loop is left. *)
Lemma iteration_completes (c : Config) (j : Job) (tbl1 tbl2 : Store) (u : unit)
    (ins : list Input) :
  pc c = AtomicBlock ->
  atomic_block [] (db c) = (Some j, tbl1) ->
  _run j tbl1 = (tbl2, Ok u) ->
  4 <= ticks ins ->
  run_inputs false (signalled c) ins
  = {| pc := Returned; db := tbl2; killer := _kill (killer c);
       log := log c ++ [Dequeued (id j); Run (id j); ReadAlive false] |}.
Proof.
  intros Hpc Hab Hok Hn.
  rewrite run_inputs_flag_down by reflexivity.
  assert (H4 : steps false 4 (signalled c)
               = {| pc := Returned; db := tbl2; killer := _kill (killer c);
                    log := log c ++ [Dequeued (id j); Run (id j); ReadAlive false] |}).
  { unfold signalled.
    rewrite steps_succ_r. unfold step at 1. cbn [pc db killer log]. rewrite Hpc, Hab.
    rewrite steps_succ_r. unfold step at 1. cbn [pc db killer log]. rewrite Hok.
    cbn. unfold goto. cbn. rewrite <- !app_assoc. reflexivity. }
  rewrite (steps_ge false 4 (ticks ins) (signalled c) Hn); rewrite H4; reflexivity.
Qed.

(** The same when the signal arrives while the claimed job runs. *)
Lemma run_completes (c : Config) (j : Job) (tbl2 : Store) (u : unit)
    (ins : list Input) :
  pc c = IfQueuedJob (Some j) ->
  _run j (db c) = (tbl2, Ok u) ->
  3 <= ticks ins ->
  run_inputs false (signalled c) ins
  = {| pc := Returned; db := tbl2; killer := _kill (killer c);
       log := log c ++ [Run (id j); ReadAlive false] |}.
Proof.
  intros Hpc Hok Hn.
  rewrite run_inputs_flag_down by reflexivity.
  assert (H3 : steps false 3 (signalled c)
               = {| pc := Returned; db := tbl2; killer := _kill (killer c);
                    log := log c ++ [Run (id j); ReadAlive false] |}).
  { unfold signalled.
    rewrite steps_succ_r. unfold step at 1. cbn [pc db killer log]. rewrite Hpc, Hok.
    cbn. unfold goto. cbn. rewrite <- !app_assoc. reflexivity. }
  rewrite (steps_ge false 3 (ticks ins) (signalled c) Hn); rewrite H3; reflexivity.
Qed.

End Shutdown.

(** C7 (the flag and the check points).  The flag is read at the loop head
    and before each of the [SECONDS] one-second sleeps, once and first
    thing, and by no other statement: the atomic block, the run of the
    claimed job and the tests of the single-shot option do the same whatever
    the flag and log no reading.  An idle sleep interrupted after [k]
    seconds skips the remaining sleeps, reads the flag before each, and the
    loop is left at the next loop head.  [handle] returns only from the loop
    head with the flag down, or through a [break] of single-shot mode.  A
    signal that arrives while control is in the atomic block, or while the
    claimed job runs, lets the claim and the run complete; the loop is left
    afterwards, at the loop head. *)
Theorem flag_checked_between_iterations (O : OrderBy) (T : JobType) (W : Wrapper) :
  (forall p,
      check_point p = true <->
      p = WhileAlive \/ exists i, p = ForSleep i /\ i < SECONDS) /\
  (forall single_shot c,
      check_point (pc c) = true ->
      exists evs,
        log (step single_shot c) = log c ++ ReadAlive (alive (killer c)) :: evs /\
        forall b, ~ In (ReadAlive b) evs) /\
  (forall single_shot c,
      check_point (pc c) = false ->
      (exists evs,
          log (step single_shot c) = log c ++ evs /\
          forall b, ~ In (ReadAlive b) evs) /\
      forall c', same_view c c' ->
                 same_view (step single_shot c) (step single_shot c')) /\
  (forall c k,
      pc c = ForSleep 0 -> alive (killer c) = true -> k <= SECONDS ->
      run_inputs false c (repeat Tick k ++ SIGTERM :: repeat Tick (SECONDS - k + 3))
      = {| pc := Returned; db := db c; killer := _kill (killer c);
           log := log c ++ List.concat (repeat [ReadAlive true; Sleep1] k)
                        ++ repeat (ReadAlive false) (SECONDS - k)
                        ++ [ReadAlive false] |}) /\
  (forall single_shot c,
      pc (step single_shot c) = Returned ->
      pc c = Returned \/
      (pc c = WhileAlive /\ alive (killer c) = false) \/
      (single_shot = true /\ (pc c = IfQueuedJob None \/ pc c = IfSingleShot))) /\
  (forall c j tbl1 tbl2 u ins,
      pc c = AtomicBlock ->
      atomic_block [] (db c) = (Some j, tbl1) ->
      _run j tbl1 = (tbl2, Ok u) ->
      4 <= ticks ins ->
      run_inputs false (signalled c) ins
      = {| pc := Returned; db := tbl2; killer := _kill (killer c);
           log := log c ++ [Dequeued (id j); Run (id j); ReadAlive false] |}) /\
  (forall c j tbl2 u ins,
      pc c = IfQueuedJob (Some j) ->
      _run j (db c) = (tbl2, Ok u) ->
      3 <= ticks ins ->
      run_inputs false (signalled c) ins
      = {| pc := Returned; db := tbl2; killer := _kill (killer c);
           log := log c ++ [Run (id j); ReadAlive false] |}).
Proof.
  split; [|split; [|split; [|split; [|split; [|split]]]]].
  - intro p. split.
    + destruct p; simpl; try discriminate; auto.
      intro H. right. eexists. split; [reflexivity | now apply Nat.ltb_lt].
    + intros [->|(i & -> & Hi)]; simpl; [reflexivity | now apply Nat.ltb_lt].
  - apply step_reads_flag.
  - intros single_shot c Hc. split.
    + now apply step_ignores_flag.
    + intros c' Hv. now apply step_same_view.
  - apply sleep_interrupted.
  - apply step_returns.
  - apply iteration_completes.
  - apply run_completes.
Qed.

Lemma flag_checked_between_iterations_witness :
  (let c := {| pc := ForSleep 0; db := Fixtures.busy_store;
               killer := GracefulKiller_init; log := [ReadAlive true] |} in
   @run_inputs table_order Fixtures.job_types Fixtures.wrapper_finishes false c
     [Tick; Tick; SIGTERM; Tick; Tick; Tick; Tick; Tick; Tick]
   = {| pc := Returned; db := Fixtures.busy_store; killer := {| alive := false |};
        log := [ReadAlive true; ReadAlive true; Sleep1; ReadAlive true; Sleep1;
                ReadAlive false; ReadAlive false; ReadAlive false;
                ReadAlive false] |}) /\
  (let c := {| pc := AtomicBlock; db := Fixtures.scenario;
               killer := GracefulKiller_init; log := [ReadAlive true] |} in
   @run_inputs table_order Fixtures.job_types Fixtures.wrapper_finishes false
     (signalled c) [Tick; Tick; SIGINT; Tick; Tick]
   = {| pc := Returned;
        db := [set_status FINISHED Fixtures.job_A; Fixtures.job_B; Fixtures.job_C];
        killer := {| alive := false |};
        log := [ReadAlive true; Dequeued 1; Run 1; ReadAlive false] |}).
Proof.
  pose proof (flag_checked_between_iterations table_order Fixtures.job_types
                Fixtures.wrapper_finishes) as (_ & _ & _ & Hsleep & _ & Hiter & _).
  split.
  - intro c. apply (Hsleep c 2); [reflexivity | reflexivity | unfold SECONDS; lia].
  - intro c.
    apply (Hiter c (set_status QUEUED Fixtures.job_A)
             [set_status QUEUED Fixtures.job_A; Fixtures.job_B; Fixtures.job_C]
             [set_status FINISHED Fixtures.job_A; Fixtures.job_B; Fixtures.job_C]
             tt [Tick; Tick; SIGINT; Tick; Tick]);
      [reflexivity | reflexivity | reflexivity | unfold ticks; simpl; lia].
Defined.

End DequeueSpec.

(** * Properties of the deltafile upload *)

Module DeltasViewsSpec.
Import DeltasViews.

Section WithCollaborators.
Context {C : Collaborators}.

(** One turn of the loop appends the row of its delta or writes nothing. *)
Lemma store_delta_effect (usr : N) (deltafile_id : Json) (projectid : string)
    (delta : Json) (tbl tbl' : list Delta) (r : result Caught unit) :
  store_delta usr deltafile_id projectid delta tbl = (tbl', r) ->
  (r = Ok tt /\ exists d, tbl' = tbl ++ [d] /\ content d = delta /\ project d = projectid) \/
  ((exists e, r = Raise e) /\ tbl' = tbl).
Proof.
  unfold store_delta, bind, lift, save_force_insert.
  destruct (getitem "uuid" delta) as [uuid|e]; [|intros [= <- <-]; right; eauto].
  destruct (field uuid) as [pk|e]; [|intros [= <- <-]; right; eauto].
  destruct (field deltafile_id) as [dfid|e]; [|intros [= <- <-]; right; eauto].
  destruct (existsb _ tbl); intros [= <- <-]; [right; eauto|].
  left. split; trivial. eexists. repeat split.
Qed.

(** When the loop stops, the rows of the deltas before the failing one are
    in the table; when it ends, the rows of all of them. *)
Lemma store_deltas_effect (usr : N) (deltafile_id : Json) (projectid : string)
    (ds : list Json) (tbl tbl' : list Delta) (r : result Caught unit) :
  store_deltas usr deltafile_id projectid ds tbl = (tbl', r) ->
  exists saved,
    tbl' = tbl ++ saved /\
    map content saved = firstn (List.length saved) ds /\
    (r = Ok tt -> List.length saved = List.length ds) /\
    (forall e, r = Raise e -> List.length saved < List.length ds).
Proof.
  revert tbl. induction ds as [|delta rest IH]; intros tbl; simpl.
  - unfold ret. intros [= <- <-]. exists []. rewrite app_nil_r.
    repeat split; trivial. discriminate.
  - unfold bind.
    destruct (store_delta usr deltafile_id projectid delta tbl) as [tbl1 r1] eqn:E.
    apply store_delta_effect in E.
    destruct E as [[-> (d & -> & Hc & _)] | [(e & ->) ->]].
    + intro H. apply IH in H. destruct H as (saved & -> & Hm & Hok & Herr).
      exists (d :: saved). rewrite <- app_assoc. simpl.
      repeat split; trivial.
      * now rewrite Hc, Hm.
      * intro Hr. now rewrite (Hok Hr).
      * intros e Hr. specialize (Herr e Hr). lia.
    + intros [= <- <-]. exists []. rewrite app_nil_r. simpl.
      repeat split; trivial; [discriminate | intros; lia].
Qed.

Lemma project_found (projectid : string) (w : World) :
  In projectid (projects w) -> existsb (String.eqb projectid) (projects w) = true.
Proof.
  intro H. apply existsb_exists. exists projectid. split; trivial.
  apply String.eqb_refl.
Qed.

Lemma post_rejects (request : Request) (projectid now : string) (w : World)
    (request_file : FileObj) (tbl : list Delta) (e : Caught) :
  In projectid (projects w) ->
  data_file request = Some request_file ->
  try_block (user request) projectid request_file (deltas w) = (tbl, Raise e) ->
  post request projectid now w
  = ({| projects := projects w;
        deltas := tbl;
        bucket := (rejected_key projectid now, request_file) :: bucket w |},
     Raise DeltafileValidationError).
Proof.
  intros Hp Hf Ht. unfold post. now rewrite (project_found _ _ Hp), Hf, Ht.
Qed.

End WithCollaborators.

Section Rejected.
Context {C : Collaborators}.

Lemma store_delta_stored (usr : N) (dfid : Json) (projectid : string)
    (delta : Json) (tbl tbl' : list Delta) (u : unit) :
  store_delta usr dfid projectid delta tbl = (tbl', Ok u) ->
  exists d, tbl' = tbl ++ [d] /\ stored_as usr dfid projectid delta d.
Proof.
  unfold store_delta, bind, lift, save_force_insert, field.
  destruct (getitem "uuid" delta) as [uuid|e] eqn:G; [|discriminate].
  destruct (to_uuid uuid) as [pk|] eqn:U; [|discriminate].
  destruct (to_uuid dfid) as [v|] eqn:D; [|discriminate].
  destruct (existsb _ tbl); [discriminate|]. intros [= <-].
  eexists. split; [reflexivity|]. exists uuid. simpl. repeat split; trivial.
Qed.

(** When the loop stops on a delta, the rows of all the deltas before it
    are in the table, one each and nothing else, and that delta is the one
    whose turn raises. *)
Lemma store_deltas_stops (usr : N) (dfid : Json) (projectid : string)
    (ds : list Json) :
  forall (tbl tbl' : list Delta) (e : Caught),
    store_deltas usr dfid projectid ds tbl = (tbl', Raise e) ->
    exists saved delta,
      tbl' = tbl ++ saved /\
      nth_error ds (List.length saved) = Some delta /\
      Forall2 (stored_as usr dfid projectid) (firstn (List.length saved) ds) saved /\
      store_delta usr dfid projectid delta tbl' = (tbl', Raise e).
Proof.
  induction ds as [|delta rest IH]; intros tbl tbl' e; simpl.
  - unfold ret. discriminate.
  - unfold bind.
    destruct (store_delta usr dfid projectid delta tbl) as [tbl1 [u|e1]] eqn:E.
    + destruct (store_delta_stored _ _ _ _ _ _ _ E) as (d & -> & Hd).
      intro H. apply IH in H. destruct H as (saved & delta' & -> & Hn & Hrows & Hstop).
      exists (d :: saved), delta'. rewrite <- app_assoc. simpl.
      rewrite <- app_assoc in Hstop. simpl in Hstop.
      repeat split; trivial. now constructor.
    + intros [= <- <-].
      pose proof (store_delta_effect _ _ _ _ _ _ _ E) as [[H _]|[_ ->]];
        [discriminate|].
      exists [], delta. rewrite app_nil_r. simpl. repeat split; trivial.
Qed.

Lemma drop_all (n : nat) (s : string) : String.length s <= n -> drop n s = EmptyString.
Proof.
  revert s. induction n as [|n IH]; intros [|a s]; simpl; intro H; trivial.
  - lia.
  - apply IH. lia.
Qed.

(** A second [read] finds nothing. *)
Lemma read_after_read (fp : Stream) : fst (read (snd (read fp))) = EmptyString.
Proof. unfold read. simpl. apply drop_all. lia. Qed.

End Rejected.

(** C10 (a rejected deltafile: what is stored).  For a request on an
    existing project, with the file object followed as a stream.  Without
    a file, [post] raises the empty-content error and leaves tables and
    bucket as they were.  With a file, whenever a statement of the [try]
    block raises, [post] raises the deltafile-validation error and the
    delta table holds its old rows followed by exactly the rows of the
    deltas that precede the one whose turn raised, none when the failure
    comes before the loop: what was saved is not rolled back.  But the
    object put in the bucket under the key of the rejected file is empty,
    whatever the bytes of the file: [json.load] has read the object to its
    end and it is uploaded as it stands.  Apart from the stored object the
    outcome is that of [post].  The last conjunct is such an upload: of
    three deltas the third repeats the uuid of the first, the first two stay
    stored, and the bucket holds an empty object. *)
Theorem rejected_upload_stores_empty_object (C : Collaborators)
    (usr : N) (bytes : string) (projectid now : string) (w : World)
    (Hproject : In projectid (projects w)) :
  post_stream usr None projectid now w = (w, Raise EmptyContentError) /\
  (forall (tbl : list Delta) (e : Caught),
      try_block usr projectid bytes (deltas w) = (tbl, Raise e) ->
      post_stream usr (Some (uploaded_file bytes)) projectid now w
      = ({| projects := projects w;
            deltas := tbl;
            bucket := (rejected_key projectid now, EmptyString) :: bucket w |},
         Raise DeltafileValidationError) /\
      exists saved,
        tbl = deltas w ++ saved /\
        match read_deltafile bytes with
        | Raise _ => saved = []
        | Ok (dfid, ds) =>
            exists delta,
              nth_error ds (List.length saved) = Some delta /\
              Forall2 (stored_as usr dfid projectid)
                      (firstn (List.length saved) ds) saved /\
              store_delta usr dfid projectid delta tbl = (tbl, Raise e)
        end) /\
  (snd (post_stream usr (Some (uploaded_file bytes)) projectid now w)
   = snd (post {| user := usr; data_file := Some bytes |} projectid now w) /\
   deltas (fst (post_stream usr (Some (uploaded_file bytes)) projectid now w))
   = deltas (fst (post {| user := usr; data_file := Some bytes |} projectid now w))) /\
  @post_stream DeltaFixtures.collaborators 5
     (Some (uploaded_file "deltafile.json")) "p1" "2021-03-01T10:00:00"
     DeltaFixtures.world
  = ({| projects := ["p1"%string];
        deltas := [DeltaFixtures.row 1 DeltaFixtures.delta_1;
                   DeltaFixtures.row 2 DeltaFixtures.delta_2];
        bucket := [("projects/p1/deltas/2021-03-01T10:00:00.json"%string,
                    EmptyString)] |},
     Raise DeltafileValidationError).
Proof.
  pose proof (project_found _ _ Hproject) as Hp.
  split; [|split; [|split]].
  - unfold post_stream. now rewrite Hp.
  - intros tbl e Ht. split.
    + unfold post_stream. rewrite Hp.
      unfold read at 1, uploaded_file. cbn [data position drop]. rewrite Ht.
      unfold read. cbn [data position]. rewrite drop_all by (simpl; lia).
      reflexivity.
    + unfold try_block, bind, lift in Ht.
      destruct (read_deltafile bytes) as [[dfid ds]|e'].
      * simpl in Ht. apply store_deltas_stops in Ht.
        destruct Ht as (saved & delta & -> & Hn & Hrows & Hstop).
        exists saved. split; trivial. exists delta. auto.
      * injection Ht as <- <-. exists []. now rewrite app_nil_r.
  - assert (Hread : read (uploaded_file bytes)
                    = (bytes, {| data := bytes;
                                 position := Nat.max 0 (String.length bytes) |}))
      by reflexivity.
    unfold post_stream, post. rewrite Hp, Hread. cbn [data_file user].
    destruct (try_block usr projectid bytes (deltas w)) as [tbl [u|e]];
      [split; reflexivity|].
    destruct (read _) as [stored fp]. split; reflexivity.
  - reflexivity.
Qed.

Lemma rejected_upload_stores_empty_object_witness :
  @post_stream DeltaFixtures.collaborators 5 None
     "p1" "2021-03-01T10:00:00" DeltaFixtures.world
  = (DeltaFixtures.world, Raise EmptyContentError) /\
  @post_stream DeltaFixtures.collaborators 5 (Some (uploaded_file "notes.txt"))
     "p1" "2021-03-01T10:00:00" DeltaFixtures.world
  = ({| projects := ["p1"%string];
        deltas := [];
        bucket := [("projects/p1/deltas/2021-03-01T10:00:00.json"%string,
                    EmptyString)] |},
     Raise DeltafileValidationError).
Proof.
  assert (Hp : In "p1"%string (projects DeltaFixtures.world)) by (left; reflexivity).
  split.
  - apply (proj1 (rejected_upload_stores_empty_object DeltaFixtures.collaborators
                    5 "notes.txt" "p1" "2021-03-01T10:00:00" DeltaFixtures.world Hp)).
  - apply (proj1 (proj1 (proj2 (rejected_upload_stores_empty_object
                                  DeltaFixtures.collaborators
                                  5 "notes.txt" "p1" "2021-03-01T10:00:00"
                                  DeltaFixtures.world Hp))
                    [] JSONDecodeError eq_refl)).
Defined.

End DeltasViewsSpec.

(** * Further properties of the dequeue command *)

Module DequeueMore.
Import Dequeue DequeueSpec.

(** *** The shape of a claim *)

Section ClaimShape.
Context {O : OrderBy} (HO : order_by_spec O).

(** On a table with distinct primary keys a successful claim rewrites the
    row of one unlocked candidate and nothing else. *)
Lemma atomic_block_shape (locked : list N) (tbl tbl' : Store) (q : Job) :
  NoDup (map id tbl) ->
  atomic_block locked tbl = (Some q, tbl') ->
  exists l1 j l2,
    tbl = l1 ++ j :: l2 /\ In j (candidates tbl) /\ unlocked locked j /\
    q = set_status QUEUED j /\ tbl' = l1 ++ q :: l2.
Proof.
  intros Hpk. unfold atomic_block.
  destruct (hd_error (jobs_qs locked tbl)) as [j|] eqn:E; [|discriminate].
  intros [= <- <-].
  destruct (jobs_qs_first HO _ _ _ E) as (Hc & Hu & _).
  pose proof (proj1 (candidates_In tbl j) Hc) as (Hin & _ & _).
  destruct (in_split _ _ Hin) as (l1 & l2 & ->).
  exists l1, j, l2. repeat split; trivial. now apply save_row.
Qed.

Lemma atomic_block_none_inv (locked : list N) (tbl tbl' : Store) :
  atomic_block locked tbl = (None, tbl') -> tbl' = tbl.
Proof.
  unfold atomic_block.
  destruct (hd_error (jobs_qs locked tbl)); [discriminate | now intros [= <-]].
Qed.

(** The primary keys stay as they are, in order. *)
Lemma atomic_block_ids (locked : list N) (tbl : Store) :
  NoDup (map id tbl) -> map id (snd (atomic_block locked tbl)) = map id tbl.
Proof.
  intro Hpk. destruct (atomic_block locked tbl) as [[q|] tbl'] eqn:E; simpl.
  - destruct (atomic_block_shape _ _ _ _ Hpk E) as (l1 & j & l2 & -> & _ & _ & -> & ->).
    now rewrite !map_app.
  - now rewrite (atomic_block_none_inv _ _ _ E).
Qed.

End ClaimShape.

Lemma active_set_status_QUEUED (j : Job) : active (set_status QUEUED j).
Proof. now left. Qed.

Lemma active_not_pending (j : Job) : active j -> status j <> PENDING.
Proof. intros [H|H]; rewrite H; discriminate. Qed.

Lemma active_jobs_count_app (l1 l2 : Store) (x j : Job) :
  active_jobs_count (l1 ++ x :: l2) j
  = active_jobs_count l1 j
    + (if N.eqb (project_id x) (project_id j) && status__in [QUEUED; STARTED] x
       then 1 else 0)
    + active_jobs_count l2 j.
Proof.
  unfold active_jobs_count.
  set (f := fun k => N.eqb (project_id k) (project_id j)
                     && status__in [QUEUED; STARTED] k).
  rewrite filter_app, length_app. cbn [filter].
  change (N.eqb (project_id x) (project_id j) && status__in [QUEUED; STARTED] x)
    with (f x).
  destruct (f x); cbn [List.length]; lia.
Qed.

Lemma active_jobs_count_zero (db : Store) (j : Job) :
  active_jobs_count db j = 0 <->
  forall k, In k db -> project_id k = project_id j -> ~ active k.
Proof.
  split.
  - intros H k Hk Hp Ha.
    assert (Hpos : Nat.ltb 0 (active_jobs_count db j) = true)
      by (apply active_jobs_count_pos; eauto).
    apply Nat.ltb_lt in Hpos. lia.
  - intro H. destruct (active_jobs_count db j) eqn:E; trivial.
    assert (Hpos : Nat.ltb 0 (active_jobs_count db j) = true)
      by (apply Nat.ltb_lt; lia).
    apply active_jobs_count_pos in Hpos. destruct Hpos as (k & Hk & Hp & Ha).
    exfalso. exact (H k Hk Hp Ha).
Qed.

(** X1 (one active job per project).  For a claim that overlaps no claim
    of a peer, so that no row is locked by another transaction: on a table
    with distinct primary keys in which every project has at most one
    queued or started job, the atomic block leaves a table with the same
    property, and the project of the job it claims ends up with exactly
    one. *)
Theorem claim_keeps_projects_exclusive (O : OrderBy) (HO : order_by_spec O)
    (tbl : Store)
    (Hpk : NoDup (map id tbl))
    (Hexcl : forall j, active_jobs_count tbl j <= 1) :
  (forall j, active_jobs_count (snd (atomic_block [] tbl)) j <= 1) /\
  (forall q, fst (atomic_block [] tbl) = Some q ->
             active_jobs_count (snd (atomic_block [] tbl)) q = 1).
Proof.
  destruct (atomic_block [] tbl) as [[q|] tbl'] eqn:E; simpl.
  - destruct (atomic_block_shape HO _ _ _ _ Hpk E)
      as (l1 & j0 & l2 & -> & Hc & _ & -> & ->).
    apply candidates_In in Hc. destruct Hc as (_ & Hs & Hfree).
    assert (Hj0 : N.eqb (project_id j0) (project_id j0)
                  && status__in [QUEUED; STARTED] j0 = false).
    { rewrite N.eqb_refl. simpl. unfold status__in. rewrite Hs. reflexivity. }
    assert (Hzero : active_jobs_count (l1 ++ j0 :: l2) j0 = 0)
      by (apply active_jobs_count_zero; exact Hfree).
    rewrite active_jobs_count_app, Hj0 in Hzero.
    split.
    + intro j. specialize (Hexcl j).
      rewrite active_jobs_count_app in *. simpl project_id.
      destruct (N.eqb_spec (project_id j0) (project_id j)) as [Hp|Hp]; simpl in *.
      * assert (Hsame : forall l, active_jobs_count l j = active_jobs_count l j0).
        { intro l. unfold active_jobs_count. now rewrite Hp. }
        rewrite !Hsame. lia.
      * destruct (status__in [QUEUED; STARTED] j0); simpl in *; lia.
    + intros q' [= <-]. rewrite active_jobs_count_app. simpl project_id.
      rewrite N.eqb_refl. simpl.
      assert (Hsame : forall l, active_jobs_count l (set_status QUEUED j0)
                                = active_jobs_count l j0) by reflexivity.
      rewrite !Hsame. lia.
  - rewrite (atomic_block_none_inv _ _ _ E). split; [exact Hexcl | discriminate].
Qed.

Lemma claim_keeps_projects_exclusive_witness :
  (forall j, active_jobs_count
               (snd (@atomic_block table_order [] Fixtures.scenario)) j <= 1) /\
  active_jobs_count (snd (@atomic_block table_order [] Fixtures.scenario))
                    (set_status QUEUED Fixtures.job_A) = 1.
Proof.
  assert (Hpk : NoDup (map id Fixtures.scenario)).
  { repeat constructor; simpl; intuition discriminate. }
  assert (Hexcl : forall j, active_jobs_count Fixtures.scenario j <= 1).
  { intro j. unfold active_jobs_count. simpl. rewrite !andb_false_r. simpl. lia. }
  pose proof (claim_keeps_projects_exclusive table_order table_order_spec
                Fixtures.scenario Hpk Hexcl) as [H1 H2].
  split; [exact H1 | apply H2; reflexivity].
Defined.

(** *** Polls in a row *)

Lemma pending_count_app (l1 l2 : Store) (x : Job) :
  pending_count (l1 ++ x :: l2)
  = pending_count l1 + (if status_is PENDING x then 1 else 0) + pending_count l2.
Proof.
  unfold pending_count. rewrite filter_app, length_app. cbn [filter].
  destruct (status_is PENDING x); cbn [List.length]; lia.
Qed.

Lemma in_middle_other (l1 l2 : Store) (x y k : Job) :
  In k (l1 ++ x :: l2) -> k <> x -> In k (l1 ++ y :: l2).
Proof.
  rewrite !in_app_iff. simpl. intros [H|[H|H]] Hne; auto. congruence.
Qed.

Section PollsFacts.
Context {O : OrderBy} (HO : order_by_spec O).

(** What is claimable after a claim was claimable before it. *)
Lemma candidates_after_claim (l1 l2 : Store) (j0 k : Job) :
  status j0 = PENDING ->
  In k (candidates (l1 ++ set_status QUEUED j0 :: l2)) ->
  In k (candidates (l1 ++ j0 :: l2)) /\ project_id k <> project_id j0.
Proof.
  intros Hs Hk. apply candidates_In in Hk. destruct Hk as (Hin & Hp & Hfree).
  assert (Hq : In (set_status QUEUED j0) (l1 ++ set_status QUEUED j0 :: l2))
    by apply in_elt.
  split.
  - apply candidates_In. repeat split; trivial.
    + apply in_middle_other with (x := set_status QUEUED j0); trivial.
      intros ->. discriminate.
    + intros k' Hk' Hpk' Ha. apply (Hfree k'); trivial.
      apply in_middle_other with (x := j0); trivial.
      intros ->. apply active_not_pending in Ha. contradiction.
  - intro E. apply (Hfree _ Hq); [now rewrite E | now left].
Qed.

Lemma polls_no_candidates (lockeds : list (list N)) (tbl : Store) :
  candidates tbl = [] -> polls lockeds tbl = ([], tbl).
Proof.
  intro H. induction lockeds as [|locked rest IH]; simpl; trivial.
  now rewrite (atomic_block_no_candidates O HO locked tbl H).
Qed.

(** What a sequence of polls keeps and what it claims. *)
Lemma polls_spec (lockeds : list (list N)) :
  forall tbl : Store,
    NoDup (map id tbl) ->
    map id (snd (polls lockeds tbl)) = map id tbl /\
    (forall k, In k tbl -> status k <> PENDING -> In k (snd (polls lockeds tbl))) /\
    (forall q, In q (fst (polls lockeds tbl)) ->
               exists j, In j (candidates tbl) /\ q = set_status QUEUED j /\
                         In q (snd (polls lockeds tbl))) /\
    NoDup (map project_id (fst (polls lockeds tbl))) /\
    pending_count (snd (polls lockeds tbl)) + List.length (fst (polls lockeds tbl))
    = pending_count tbl.
Proof.
  induction lockeds as [|locked rest IH]; intros tbl Hpk.
  - simpl. repeat split; trivial; [intros q [] | constructor | lia].
  - simpl. destruct (atomic_block locked tbl) as [[q|] tbl1] eqn:E.
    + destruct (atomic_block_shape HO _ _ _ _ Hpk E)
        as (l1 & j0 & l2 & -> & Hc & _ & -> & ->).
      pose proof (proj1 (candidates_In _ _) Hc) as (_ & Hs & _).
      assert (Hpk1 : NoDup (map id (l1 ++ set_status QUEUED j0 :: l2))).
      { rewrite map_app in *. exact Hpk. }
      destruct (IH _ Hpk1) as (Hids & Hkeep & Hclaimed & Hnd & Hcount).
      destruct (polls rest (l1 ++ set_status QUEUED j0 :: l2)) as [claimed tbl2].
      simpl in *.
      assert (Hq2 : In (set_status QUEUED j0) tbl2).
      { apply Hkeep; [apply in_elt | discriminate]. }
      split; [|split; [|split; [|split]]].
      * rewrite Hids, !map_app. reflexivity.
      * intros k Hk Hnp. apply Hkeep; trivial.
        apply in_middle_other with (x := j0); trivial. congruence.
      * intros q [<-|Hq].
        -- exists j0. auto.
        -- destruct (Hclaimed q Hq) as (j & Hj & -> & Hin).
           exists j. repeat split; trivial.
           now apply (candidates_after_claim l1 l2 j0 j Hs).
      * constructor; trivial. rewrite in_map_iff. intros (q & Hp & Hq).
        destruct (Hclaimed q Hq) as (j & Hj & -> & _).
        apply (candidates_after_claim l1 l2 j0 j Hs) in Hj. simpl in Hp. tauto.
      * rewrite pending_count_app in *. unfold status_is in *. simpl in Hcount.
        rewrite Hs. simpl. lia.
    + rewrite (atomic_block_none_inv _ _ _ E). now apply IH.
Qed.

(** A job claimed by one of the polls was not locked at any of them: it
    was claimed at one where its row was free.  Stated for the lock sets
    the sequence is made of. *)
Lemma polls_claim_unlocked (lockeds : list (list N)) :
  forall tbl : Store,
    NoDup (map id tbl) ->
    forall q, In q (fst (polls lockeds tbl)) ->
    forall locked, (forall l, In l lockeds -> l = locked) -> unlocked locked q.
Proof.
  induction lockeds as [|l0 rest IH]; intros tbl Hpk q Hq locked Hall; simpl in Hq.
  - contradiction.
  - destruct (atomic_block l0 tbl) as [[q0|] tbl1] eqn:E.
    + destruct (atomic_block_shape HO _ _ _ _ Hpk E)
        as (l1 & j0 & l2 & -> & _ & Hu & -> & ->).
      assert (Hpk1 : NoDup (map id (l1 ++ set_status QUEUED j0 :: l2))).
      { rewrite map_app in *. exact Hpk. }
      specialize (IH _ Hpk1).
      destruct (polls rest (l1 ++ set_status QUEUED j0 :: l2)) as [claimed tbl2].
      simpl in Hq. destruct Hq as [<-|Hq].
      * rewrite <- (Hall l0 (or_introl eq_refl)). exact Hu.
      * apply (IH q Hq). intros l Hl. apply Hall. now right.
    + rewrite (atomic_block_none_inv _ _ _ E) in Hq.
      apply (IH tbl Hpk q Hq). intros l Hl. apply Hall. now right.
Qed.

End PollsFacts.

(** X2 (one claim per project).  For claims executed one after another, each
    committed before the next begins and none finding a row locked by
    another transaction: on a table with distinct primary keys, however
    many times the atomic block is executed, no two of the claimed jobs
    belong to the same project; each claimed job is the queued copy of a
    job that was a candidate in the table the sequence started from, and
    stands queued in the table it leaves. *)
Theorem polls_claim_one_job_per_project (O : OrderBy) (HO : order_by_spec O)
    (n : nat) (tbl : Store) (Hpk : NoDup (map id tbl)) :
  NoDup (map project_id (fst (polls (repeat [] n) tbl))) /\
  forall q, In q (fst (polls (repeat [] n) tbl)) ->
            exists j, In j (candidates tbl) /\ q = set_status QUEUED j /\
                      In q (snd (polls (repeat [] n) tbl)).
Proof.
  destruct (polls_spec HO (repeat [] n) tbl Hpk) as (_ & _ & Hclaimed & Hnd & _).
  split; assumption.
Qed.

Lemma polls_claim_one_job_per_project_witness :
  NoDup (map project_id
           (fst (@polls table_order (repeat [] 4) Fixtures.scenario))) /\
  fst (@polls table_order (repeat [] 4) Fixtures.scenario)
  = [set_status QUEUED Fixtures.job_A; set_status QUEUED Fixtures.job_C].
Proof.
  assert (Hpk : NoDup (map id Fixtures.scenario)).
  { repeat constructor; simpl; intuition discriminate. }
  split; [|reflexivity].
  apply (proj1 (polls_claim_one_job_per_project table_order table_order_spec
                  4 Fixtures.scenario Hpk)).
Defined.

(** X3 (nothing is lost, the queue drains).  On a table with distinct
    primary keys a sequence of polls changes no primary key, leaves every
    row that was not pending as it was, and turns exactly as many pending
    rows into queued ones as it claims jobs.  After as many polls with no
    row locked as the table has pending rows, no candidate is left. *)
Theorem polls_drain_the_queue (O : OrderBy) (HO : order_by_spec O)
    (tbl : Store) (Hpk : NoDup (map id tbl)) :
  (forall lockeds,
      map id (snd (polls lockeds tbl)) = map id tbl /\
      (forall k, In k tbl -> status k <> PENDING -> In k (snd (polls lockeds tbl))) /\
      pending_count (snd (polls lockeds tbl)) + List.length (fst (polls lockeds tbl))
      = pending_count tbl) /\
  (forall n, pending_count tbl <= n ->
             candidates (snd (polls (repeat [] n) tbl)) = []).
Proof.
  split.
  - intro lockeds.
    destruct (polls_spec HO lockeds tbl Hpk) as (H1 & H2 & _ & _ & H3). auto.
  - intro n. revert tbl Hpk. induction n as [|n IH]; intros tbl Hpk Hn.
    + simpl. unfold candidates, pending_count in *.
      destruct (filter (status_is PENDING) tbl); [reflexivity | simpl in Hn; lia].
    + simpl. destruct (atomic_block [] tbl) as [[q|] tbl1] eqn:E.
      * destruct (atomic_block_shape HO _ _ _ _ Hpk E)
          as (l1 & j0 & l2 & -> & Hc & _ & -> & ->).
        pose proof (proj1 (candidates_In _ _) Hc) as (_ & Hs & _).
        assert (Hpk1 : NoDup (map id (l1 ++ set_status QUEUED j0 :: l2))).
        { rewrite map_app in *. exact Hpk. }
        assert (Hn1 : pending_count (l1 ++ set_status QUEUED j0 :: l2) <= n).
        { rewrite pending_count_app in *. unfold status_is in *. simpl.
          rewrite Hs in Hn. simpl in Hn. lia. }
        specialize (IH _ Hpk1 Hn1).
        destruct (polls (repeat [] n) (l1 ++ set_status QUEUED j0 :: l2)).
        exact IH.
      * rewrite (atomic_block_none_inv _ _ _ E).
        assert (Hnone : candidates tbl = []).
        { unfold atomic_block in E.
          destruct (hd_error (jobs_qs [] tbl)) eqn:F; [discriminate|].
          rewrite (jobs_qs_unlocked tbl) in F.
          destruct (order_by_created_at (candidates tbl)) eqn:G; [|discriminate].
          exact (proj1 (order_by_nil_iff HO _) G). }
        now rewrite (polls_no_candidates HO _ _ Hnone).
Qed.

Lemma polls_drain_the_queue_witness :
  pending_count (snd (@polls table_order [[]; [3%N]] Fixtures.scenario))
  + List.length (fst (@polls table_order [[]; [3%N]] Fixtures.scenario))
  = pending_count Fixtures.scenario /\
  candidates (snd (@polls table_order (repeat [] 3) Fixtures.scenario)) = [].
Proof.
  assert (Hpk : NoDup (map id Fixtures.scenario)).
  { repeat constructor; simpl; intuition discriminate. }
  pose proof (polls_drain_the_queue table_order table_order_spec
                Fixtures.scenario Hpk) as [H1 H2].
  split.
  - apply (H1 [[]; [3%N]]).
  - apply (H2 3). unfold pending_count. simpl. lia.
Defined.

Lemma atomic_block_oldest (O : OrderBy) (HO : order_by_spec O)
    (locked : list N) (tbl tbl' : Store) (q : Job) :
  atomic_block locked tbl = (Some q, tbl') ->
  forall k, In k (candidates tbl) -> unlocked locked k ->
            (created_at q <= created_at k)%Z.
Proof.
  unfold atomic_block.
  destruct (hd_error (jobs_qs locked tbl)) as [j|] eqn:E; [|discriminate].
  intros [= <- <-] k Hk Hu.
  destruct (jobs_qs_first HO _ _ _ E) as (_ & _ & Hmin). now apply Hmin.
Qed.

(** X16 (rows locked elsewhere are skipped).  Whatever rows other
    transactions hold locked, the job the atomic block claims is the queued
    copy of a candidate whose row is not locked, of least [created_at] among
    the candidates whose rows are not locked; and the atomic block reports
    no job exactly when every candidate is locked, in particular when there
    is none. *)
Theorem claim_skips_locked_rows (O : OrderBy) (HO : order_by_spec O)
    (locked : list N) (tbl : Store) :
  (forall q,
      fst (atomic_block locked tbl) = Some q ->
      exists j,
        q = set_status QUEUED j /\ In j (candidates tbl) /\ ~ In (id j) locked /\
        forall k, In k (candidates tbl) -> ~ In (id k) locked ->
                  (created_at j <= created_at k)%Z) /\
  (fst (atomic_block locked tbl) = None <->
   forall k, In k (candidates tbl) -> In (id k) locked).
Proof.
  rewrite atomic_block_fst. split.
  - intros q Hq.
    destruct (hd_error (jobs_qs locked tbl)) as [j|] eqn:E; [|discriminate].
    simpl in Hq. injection Hq as <-.
    destruct (jobs_qs_first HO _ _ _ E) as (Hc & Hu & Hmin).
    exists j. auto.
  - destruct (hd_error (jobs_qs locked tbl)) as [j|] eqn:E; simpl.
    + split; [discriminate|]. intro Hall. exfalso.
      destruct (jobs_qs_first HO _ _ _ E) as (Hc & Hu & _).
      exact (Hu (Hall j Hc)).
    + split; [|reflexivity]. intros _ k Hk.
      pose proof (proj1 (jobs_qs_first_none HO locked tbl) E k Hk) as Hnu.
      destruct (in_dec N.eq_dec (id k) locked) as [Hin|Hout]; trivial.
      exfalso. exact (Hnu Hout).
Qed.

Lemma claim_skips_locked_rows_witness :
  (exists j,
      set_status QUEUED Fixtures.job_C = set_status QUEUED j /\
      In j (candidates Fixtures.scenario) /\ ~ In (id j) [1%N] /\
      forall k, In k (candidates Fixtures.scenario) -> ~ In (id k) [1%N] ->
                (created_at j <= created_at k)%Z) /\
  fst (@atomic_block table_order [1%N; 2%N; 3%N] Fixtures.scenario) = None.
Proof.
  split.
  - apply (proj1 (claim_skips_locked_rows table_order table_order_spec
                    [1%N] Fixtures.scenario)).
    reflexivity.
  - apply (proj2 (claim_skips_locked_rows table_order table_order_spec
                    [1%N; 2%N; 3%N] Fixtures.scenario)).
    intros k Hk. apply candidates_In in Hk. destruct Hk as [Hin _].
    simpl in Hin. destruct Hin as [<-|[<-|[<-|[]]]]; simpl; auto.
Defined.

(** X4 (oldest first across polls).  On a table with distinct primary keys,
    polls executed in a row under one and the same set of locked rows claim
    their jobs in non-decreasing order of [created_at]. *)
Theorem polls_claim_oldest_first (O : OrderBy) (HO : order_by_spec O)
    (locked : list N) (n : nat) (tbl : Store) (Hpk : NoDup (map id tbl)) :
  StronglySorted created_at_le (fst (polls (repeat locked n) tbl)).
Proof.
  revert tbl Hpk. induction n as [|n IH]; intros tbl Hpk; simpl; [constructor|].
  destruct (atomic_block locked tbl) as [[q|] tbl1] eqn:E.
  - pose proof (atomic_block_oldest O HO _ _ _ _ E) as Hmin.
    destruct (atomic_block_shape HO _ _ _ _ Hpk E)
      as (l1 & j0 & l2 & -> & Hc & _ & -> & ->).
    pose proof (proj1 (candidates_In _ _) Hc) as (_ & Hs & _).
    assert (Hpk1 : NoDup (map id (l1 ++ set_status QUEUED j0 :: l2))).
    { rewrite map_app in *. exact Hpk. }
    specialize (IH _ Hpk1).
    pose proof (polls_spec HO (repeat locked n) _ Hpk1) as (_ & _ & Hclaimed & _ & _).
    pose proof (polls_claim_unlocked HO (repeat locked n) _ Hpk1) as Hunl.
    destruct (polls (repeat locked n) (l1 ++ set_status QUEUED j0 :: l2))
      as [claimed tbl2].
    simpl in *. constructor; trivial.
    rewrite Forall_forall. intros q Hq.
    destruct (Hclaimed q Hq) as (j & Hj & -> & _).
    apply (candidates_after_claim l1 l2 j0 j Hs) in Hj. destruct Hj as [Hj _].
    unfold created_at_le. simpl. apply (Hmin j Hj).
    apply (Hunl _ Hq locked). apply repeat_spec.
  - rewrite (atomic_block_none_inv _ _ _ E). now apply IH.
Qed.

Lemma polls_claim_oldest_first_witness :
  StronglySorted created_at_le
    (fst (@polls table_order (repeat [] 5)
            (Fixtures.three_jobs ++ Fixtures.scenario))).
Proof.
  apply (polls_claim_oldest_first table_order table_order_spec [] 5).
  repeat constructor; simpl; intuition discriminate.
Defined.

(** *** The busy projects *)

(** X5 (what [busy_projects_ids_qs] lists).  The subquery starts from the
    pending rows, so it lists a project exactly when the project has both a
    pending job and a queued or started one.  It lists only projects with a
    queued or started job, leaves out those of them that have no pending
    job, and on the project of any pending row it agrees with the plain set
    of projects that have a queued or started job. *)
Theorem busy_projects_have_pending_and_active (db : Store) :
  (forall p,
      In p (busy_projects_ids_qs db) <->
      (exists j, In j db /\ status j = PENDING /\ project_id j = p) /\
      (exists k, In k db /\ project_id k = p /\ active k)) /\
  incl (busy_projects_ids_qs db) (spec_busy_project_ids db) /\
  (forall p,
      In p (spec_busy_project_ids db) ->
      (forall j, In j db -> project_id j = p -> status j <> PENDING) ->
      ~ In p (busy_projects_ids_qs db)) /\
  (forall j,
      In j db -> status j = PENDING ->
      (In (project_id j) (busy_projects_ids_qs db) <->
       In (project_id j) (spec_busy_project_ids db))).
Proof.
  split; [|split; [|split]].
  - apply busy_projects_ids_qs_In.
  - intros p Hp. apply busy_projects_ids_qs_In in Hp.
    apply spec_busy_project_ids_In. tauto.
  - intros p _ Hnone Hp. apply busy_projects_ids_qs_In in Hp.
    destruct Hp as [(j & Hj & Hs & Hpj) _]. exact (Hnone j Hj Hpj Hs).
  - intros j Hj Hs. rewrite busy_projects_ids_qs_In, spec_busy_project_ids_In.
    split; [tauto|]. intro H. split; [exists j; auto | exact H].
Qed.

Lemma busy_projects_have_pending_and_active_witness :
  ~ In 1%N (busy_projects_ids_qs [mkJob 1 "package" STARTED 1 1;
                                  mkJob 2 "package" PENDING 2 2]) /\
  (In 1%N (busy_projects_ids_qs Fixtures.busy_store) <->
   In 1%N (spec_busy_project_ids Fixtures.busy_store)).
Proof.
  split.
  - apply (proj1 (proj2 (proj2 (busy_projects_have_pending_and_active
                                  [mkJob 1 "package" STARTED 1 1;
                                   mkJob 2 "package" PENDING 2 2]))) 1%N).
    + simpl. now left.
    + simpl. intros j [<-|[<-|[]]]; simpl; intros; discriminate.
  - apply (proj2 (proj2 (proj2 (busy_projects_have_pending_and_active
                                  Fixtures.busy_store)))
             (mkJob 2 "package" PENDING 1 2)).
    + simpl. auto.
    + reflexivity.
Defined.

(** *** Claims and runs in the log *)

Lemma claimed_not_run_app (l : list Event) (e : Event) :
  claimed_not_run (l ++ [e]) = pair_event (claimed_not_run l) e.
Proof. unfold claimed_not_run. now rewrite fold_left_app. Qed.

Section Pairing.
Context {O : OrderBy} {T : JobType} {W : Wrapper}.
Variable single_shot : bool.

Lemma step_paired (c : Config) : paired c -> paired (step single_shot c).
Proof.
  unfold paired, step.
  destruct (pc c) as [| |[j|]|i| | |e] eqn:E; intro H.
  - destruct (alive (killer c)); simpl; now rewrite claimed_not_run_app, H.
  - destruct (atomic_block [] (db c)) as [[j|] d]; simpl.
    + now rewrite claimed_not_run_app, H.
    + now rewrite app_nil_r.
  - destruct (_run j (db c)) as [d [u|e]]; simpl.
    + rewrite claimed_not_run_app, H. simpl. now rewrite N.eqb_refl.
    + eauto.
  - destruct single_shot; simpl; now rewrite app_nil_r.
  - destruct (Nat.ltb i SECONDS); [destruct (alive (killer c))|]; simpl.
    + change (log c ++ [ReadAlive true; Sleep1])
        with (log c ++ [ReadAlive true] ++ [Sleep1]).
      rewrite app_assoc, !claimed_not_run_app, H. reflexivity.
    + now rewrite claimed_not_run_app, H.
    + now rewrite app_nil_r.
  - destruct single_shot; simpl; now rewrite app_nil_r.
  - now rewrite E.
  - now rewrite E.
Qed.

Lemma run_inputs_paired (ins : list Input) :
  forall c, paired c -> paired (run_inputs single_shot c ins).
Proof.
  induction ins as [|i ins IH]; intros c H; [exact H|].
  destruct i; apply IH; [now apply step_paired | exact H | exact H].
Qed.

End Pairing.

(** X6 (no claimed job is left behind on return).  However [handle] is
    driven, by statements and signals in any order and in either mode, its
    log pairs every claim with the run of the same job right after it, but
    for at most one claim at the end: there is one, of job [j], exactly
    while control stands before the run of [j], or when an exception has
    left [handle]; when [handle] has returned every claimed job has been
    run. *)
Theorem claimed_jobs_are_run (O : OrderBy) (T : JobType) (W : Wrapper)
    (single_shot : bool) (tbl : Store) (ins : list Input) :
  let c := run_inputs single_shot (handle tbl) ins in
  (pc c = Returned -> claimed_not_run (log c) = Some None) /\
  (forall j, pc c = IfQueuedJob (Some j) ->
             claimed_not_run (log c) = Some (Some (id j))) /\
  (forall e, pc c = Raised e -> exists i, claimed_not_run (log c) = Some (Some i)) /\
  claimed_not_run (log c) <> None.
Proof.
  intro c.
  assert (H : paired c) by (apply run_inputs_paired; reflexivity).
  unfold paired in H. repeat split.
  - intro E. now rewrite E in H.
  - intros j E. now rewrite E in H.
  - intros e E. now rewrite E in H.
  - destruct (pc c) as [| |[j|]|i| | |e]; try (rewrite H; discriminate).
    destruct H as (i & ->). discriminate.
Qed.

Lemma claimed_jobs_are_run_witness :
  claimed_not_run
    (log (@run_inputs table_order Fixtures.job_types Fixtures.wrapper_finishes false
            (handle Fixtures.scenario)
            (repeat Tick 9 ++ SIGTERM :: repeat Tick 12)))
  = Some None.
Proof.
  apply (proj1 (claimed_jobs_are_run table_order Fixtures.job_types
                  Fixtures.wrapper_finishes false Fixtures.scenario
                  (repeat Tick 9 ++ SIGTERM :: repeat Tick 12))).
  reflexivity.
Defined.

(** *** The daemon *)

(** X7 (the daemon stops only on a signal).  In continuous mode, as long
    as no signal arrives, the flag stays up and [handle] does not return,
    however many statements it executes; it can only be left by an
    exception. *)
Theorem continuous_loop_never_returns (O : OrderBy) (T : JobType) (W : Wrapper)
    (tbl : Store) (n : nat) :
  alive (killer (steps false n (handle tbl))) = true /\
  pc (steps false n (handle tbl)) <> Returned.
Proof.
  induction n as [|n [IHa IHp]].
  - split; [reflexivity | discriminate].
  - unfold steps in *. rewrite Nat.iter_succ.
    set (c := Nat.iter n (step false) (handle tbl)) in *.
    split; [now rewrite step_killer|].
    intro H. apply step_returns in H.
    destruct H as [H|[[_ H]|[H _]]]; congruence.
Qed.

Lemma continuous_loop_never_returns_witness :
  pc (@steps table_order Fixtures.job_types Fixtures.wrapper_finishes false 40
        (handle Fixtures.scenario)) <> Returned.
Proof.
  apply (proj2 (continuous_loop_never_returns table_order Fixtures.job_types
                  Fixtures.wrapper_finishes Fixtures.scenario 40)).
Defined.

(** *** Leaving the loop *)

Section Leaving.
Context {O : OrderBy} {T : JobType} {W : Wrapper}.

Lemma terminal_cases (p : PC) :
  terminal p = true -> p = Returned \/ exists e, p = Raised e.
Proof. destruct p; simpl; try discriminate; eauto. Qed.

Lemma steps_ge_terminal (single_shot : bool) (k n : nat) (c : Config) :
  k <= n -> terminal (pc (steps single_shot k c)) = true ->
  steps single_shot n c = steps single_shot k c.
Proof.
  intros Hle H. replace n with ((n - k) + k) by lia.
  unfold steps at 1. rewrite Nat.iter_add.
  fold (steps single_shot k c).
  induction (n - k) as [|m IH]; [reflexivity|].
  rewrite Nat.iter_succ, IH. apply step_terminal. now apply terminal_cases.
Qed.

Lemma run_inputs_terminal (single_shot : bool) (ins : list Input) (c : Config) :
  terminal (pc c) = true -> same_view (run_inputs single_shot c ins) c.
Proof.
  revert c. induction ins as [|i ins IH]; intros c H; [repeat split|].
  destruct i.
  - change (same_view (run_inputs single_shot (step single_shot c) ins) c).
    rewrite step_terminal by (now apply terminal_cases). now apply IH.
  - destruct (IH (signalled c) H) as (H1 & H2 & H3). repeat split; assumption.
  - destruct (IH (signalled c) H) as (H1 & H2 & H3). repeat split; assumption.
Qed.

End Leaving.

Ltac exec_statement :=
  rewrite steps_succ_r; unfold step at 1;
  cbn [pc db killer log alive goto Nat.ltb Nat.leb SECONDS].

Ltac quiet_log :=
  split; [simpl; rewrite <- ?app_assoc, ?app_nil_r; reflexivity|];
  split; [simpl; intuition discriminate | simpl; lia].

(** X8 (a signal is obeyed within ten statements).  In continuous mode,
    once the flag is down, wherever control stands, [handle] has returned or
    raised after at most ten further statements, whatever further signals
    arrive; in those statements it does not sleep and claims at most one
    job. *)
Theorem shutdown_is_prompt (O : OrderBy) (T : JobType) (W : Wrapper)
    (c : Config) (ins : list Input)
    (Hdown : alive (killer c) = false) (Hn : 10 <= ticks ins) :
  let c' := run_inputs false c ins in
  terminal (pc c') = true /\
  exists evs,
    log c' = log c ++ evs /\
    ~ In Sleep1 evs /\
    List.length (filter is_claim evs) <= 1.
Proof.
  intro c'. unfold c'. rewrite run_inputs_flag_down by exact Hdown.
  assert (H10 : forall cf, cf = steps false 10 c ->
                terminal (pc cf) = true /\
                exists evs,
                  log cf = log c ++ evs /\
                  ~ In Sleep1 evs /\
                  List.length (filter is_claim evs) <= 1).
  { clear c' Hn ins. destruct c as [p d [a] l]. simpl in Hdown. subst a.
    intro cf. cbn [log].
    destruct p as [| |[j|]|i| | |e].
    - do 10 exec_statement. intros ->. split; [reflexivity|].
      exists [ReadAlive false]. quiet_log.
    - exec_statement. destruct (atomic_block [] d) as [[j|] d1].
      + exec_statement. destruct (_run j d1) as [d2 [u|e]].
        * do 8 exec_statement. intros ->. split; [reflexivity|].
          exists [Dequeued (id j); Run (id j); ReadAlive false]. quiet_log.
        * do 8 exec_statement. intros ->. split; [reflexivity|].
          exists [Dequeued (id j)]. quiet_log.
      + do 9 exec_statement. intros ->. split; [reflexivity|].
        exists (repeat (ReadAlive false) 6). quiet_log.
    - exec_statement. destruct (_run j d) as [d2 [u|e]].
      + do 9 exec_statement. intros ->. split; [reflexivity|].
        exists [Run (id j); ReadAlive false]. quiet_log.
      + do 9 exec_statement. intros ->. split; [reflexivity|].
        exists []. quiet_log.
    - do 10 exec_statement. intros ->. split; [reflexivity|].
      exists (repeat (ReadAlive false) 6). quiet_log.
    - do 5 (destruct i as [|i];
            [do 10 exec_statement; intros ->; split; [reflexivity|];
             eexists;
             (split; [simpl; rewrite <- ?app_assoc; reflexivity|]);
             split; [simpl; intuition discriminate | simpl; lia]|]).
      do 10 exec_statement. intros ->. split; [reflexivity|].
      exists [ReadAlive false]. quiet_log.
    - do 10 exec_statement. intros ->. split; [reflexivity|].
      exists [ReadAlive false]. quiet_log.
    - do 10 exec_statement. intros ->. split; [reflexivity|].
      exists []. quiet_log.
    - do 10 exec_statement. intros ->. split; [reflexivity|].
      exists []. quiet_log. }
  destruct (H10 _ eq_refl) as [Hterm Hlog].
  rewrite (steps_ge_terminal false 10 (ticks ins) c Hn Hterm). split; assumption.
Qed.

Lemma shutdown_is_prompt_witness :
  let c := {| pc := AtomicBlock; db := Fixtures.busy_store;
              killer := {| alive := false |}; log := [ReadAlive true] |} in
  let c' := @run_inputs table_order Fixtures.job_types Fixtures.wrapper_finishes
              false c (SIGTERM :: repeat Tick 10) in
  terminal (pc c') = true /\
  exists evs,
    log c' = log c ++ evs /\
    ~ In Sleep1 evs /\
    List.length (filter is_claim evs) <= 1.
Proof.
  intro c.
  apply (shutdown_is_prompt table_order Fixtures.job_types Fixtures.wrapper_finishes
           c (SIGTERM :: repeat Tick 10)).
  - reflexivity.
  - unfold ticks. simpl. lia.
Defined.

(** X9 (what a single-shot invocation can do).  With the single-shot
    option set, whatever signals arrive and whenever, [handle] is over
    after four statements, in one of four ways: the flag was down at the
    loop head and nothing was done; the atomic block found no job and
    nothing was written; one job was claimed and run; or one job was
    claimed and its run raised.  It never sleeps and never claims a second
    job. *)
Theorem single_shot_outcomes (O : OrderBy) (T : JobType) (W : Wrapper)
    (tbl : Store) (ins : list Input) (Hn : 4 <= ticks ins) :
  let c := run_inputs true (handle tbl) ins in
  (pc c = Returned /\ db c = tbl /\ log c = [ReadAlive false]) \/
  (fst (atomic_block [] tbl) = None /\
   pc c = Returned /\ db c = tbl /\ log c = [ReadAlive true]) \/
  (exists j tbl1 tbl2 u,
      atomic_block [] tbl = (Some j, tbl1) /\ _run j tbl1 = (tbl2, Ok u) /\
      pc c = Returned /\ db c = tbl2 /\
      log c = [ReadAlive true; Dequeued (id j); Run (id j)]) \/
  (exists j tbl1 tbl2 e,
      atomic_block [] tbl = (Some j, tbl1) /\ _run j tbl1 = (tbl2, Raise e) /\
      pc c = Raised e /\ db c = tbl2 /\
      log c = [ReadAlive true; Dequeued (id j)]).
Proof.
  intro c. unfold c. clear c.
  assert (Hgen : forall c0,
      pc c0 = WhileAlive -> db c0 = tbl -> log c0 = [] ->
      let c := run_inputs true c0 ins in
      (pc c = Returned /\ db c = tbl /\ log c = [ReadAlive false]) \/
      (fst (atomic_block [] tbl) = None /\
       pc c = Returned /\ db c = tbl /\ log c = [ReadAlive true]) \/
      (exists j tbl1 tbl2 u,
          atomic_block [] tbl = (Some j, tbl1) /\ _run j tbl1 = (tbl2, Ok u) /\
          pc c = Returned /\ db c = tbl2 /\
          log c = [ReadAlive true; Dequeued (id j); Run (id j)]) \/
      (exists j tbl1 tbl2 e,
          atomic_block [] tbl = (Some j, tbl1) /\ _run j tbl1 = (tbl2, Raise e) /\
          pc c = Raised e /\ db c = tbl2 /\
          log c = [ReadAlive true; Dequeued (id j)])).
  { induction ins as [|i rest IH]; intros c0 Hpc Hdb Hlog.
    - unfold ticks in Hn. simpl in Hn. lia.
    - destruct i.
      + change (ticks (Tick :: rest)) with (S (ticks rest)) in Hn. clear IH.
        destruct c0 as [p d [a] l]. simpl in Hpc, Hdb, Hlog. subst p d l.
        change (run_inputs true _ (Tick :: rest))
          with (run_inputs true
                  (step true {| pc := WhileAlive; db := tbl;
                                killer := {| alive := a |}; log := [] |}) rest).
        unfold step at 1. cbn [pc db killer log alive goto]. destruct a.
        * set (c1 := {| pc := AtomicBlock; db := tbl;
                        killer := {| alive := true |};
                        log := [] ++ [ReadAlive true] |}).
          assert (Hv : same_view (run_inputs true c1 rest)
                                 (steps true (ticks rest) c1))
            by (apply run_inputs_single_shot; repeat split).
          assert (H3 : forall cf, cf = steps true 3 c1 ->
                       terminal (pc cf) = true /\
                       ((fst (atomic_block [] tbl) = None /\
                         pc cf = Returned /\ db cf = tbl /\ log cf = [ReadAlive true]) \/
                        (exists j tbl1 tbl2 u,
                            atomic_block [] tbl = (Some j, tbl1) /\
                            _run j tbl1 = (tbl2, Ok u) /\
                            pc cf = Returned /\ db cf = tbl2 /\
                            log cf = [ReadAlive true; Dequeued (id j); Run (id j)]) \/
                        (exists j tbl1 tbl2 e,
                            atomic_block [] tbl = (Some j, tbl1) /\
                            _run j tbl1 = (tbl2, Raise e) /\
                            pc cf = Raised e /\ db cf = tbl2 /\
                            log cf = [ReadAlive true; Dequeued (id j)]))).
          { intro cf. unfold c1. exec_statement.
            destruct (atomic_block [] tbl) as [[j|] tbl1] eqn:E.
            - exec_statement. destruct (_run j tbl1) as [tbl2 [u|e]] eqn:R.
              + exec_statement. intros ->. split; [reflexivity|].
                right. left. exists j, tbl1, tbl2, u. repeat split; trivial.
              + exec_statement. intros ->. split; [reflexivity|].
                right. right. exists j, tbl1, tbl2, e. repeat split; trivial.
            - do 2 exec_statement. intros ->. split; [reflexivity|].
              left. repeat split.
              apply atomic_block_none_inv in E. now subst. }
          destruct (H3 _ eq_refl) as [Hterm Hcases].
          rewrite (steps_ge_terminal true 3 (ticks rest) c1) in Hv by (trivial; lia).
          destruct Hv as (Hvp & Hvd & Hvl).
          cbv zeta. unfold goto. cbn [pc db killer log]. fold c1.
          right. rewrite Hvp, Hvd, Hvl. exact Hcases.
        * set (c1 := {| pc := Returned; db := tbl;
                        killer := {| alive := false |};
                        log := [] ++ [ReadAlive false] |}).
          destruct (run_inputs_terminal true rest c1 eq_refl) as (Hvp & Hvd & Hvl).
          cbv zeta. unfold goto. cbn [pc db killer log]. fold c1.
          left. rewrite Hvp, Hvd, Hvl. repeat split.
      + apply (IH Hn (signalled c0)); assumption.
      + apply (IH Hn (signalled c0)); assumption. }
  apply Hgen; reflexivity.
Qed.

Lemma single_shot_outcomes_witness :
  let c := @run_inputs table_order Fixtures.job_types Fixtures.wrapper_raises true
             (handle Fixtures.scenario) [Tick; SIGINT; Tick; Tick; Tick] in
  pc c = Raised (WrapperError "docker") /\
  log c = [ReadAlive true; Dequeued 1].
Proof.
  intro c.
  destruct (single_shot_outcomes table_order Fixtures.job_types
              Fixtures.wrapper_raises Fixtures.scenario
              [Tick; SIGINT; Tick; Tick; Tick])
    as [(H & _) | [(H & _) | [(j & t1 & t2 & u & _ & H & _)
                             | (j & t1 & t2 & e & _ & _ & Hp & _ & Hl)]]].
  - unfold ticks. simpl. lia.
  - discriminate H.
  - discriminate H.
  - split; reflexivity.
  - split; reflexivity.
Defined.

End DequeueMore.

(** * Further properties of the delta views *)

Module DeltasViewsMore.
Import DeltasViews DeltasViewsSpec.

Section Uploads.
Context {C : Collaborators}.

Lemma existsb_eqb_In (x : string) (l : list string) :
  existsb (String.eqb x) l = true <-> In x l.
Proof.
  rewrite existsb_exists. split.
  - intros (y & Hy & E). apply String.eqb_eq in E. now subst.
  - intro H. exists x. split; trivial. apply String.eqb_refl.
Qed.

Lemma existsb_id_In (n : N) (tbl : list Delta) :
  existsb (fun r => N.eqb (id r) n) tbl = true <-> In n (map id tbl).
Proof.
  rewrite existsb_exists, in_map_iff. split.
  - intros (r & Hr & E). apply N.eqb_eq in E. eauto.
  - intros (r & E & Hr). exists r. split; trivial. now apply N.eqb_eq.
Qed.

(** One turn of the loop, in full. *)
Lemma store_delta_row (usr : N) (dfid : Json) (projectid : string)
    (delta : Json) (tbl tbl' : list Delta) (r : result Caught unit) :
  store_delta usr dfid projectid delta tbl = (tbl', r) ->
  (r = Ok tt /\
   exists d, tbl' = tbl ++ [d] /\ stored_as usr dfid projectid delta d /\
             ~ In (id d) (map id tbl)) \/
  ((exists e, r = Raise e) /\ tbl' = tbl).
Proof.
  unfold store_delta, bind, lift, save_force_insert, field.
  destruct (getitem "uuid" delta) as [uuid|e] eqn:G; [|intros [= <- <-]; right; eauto].
  destruct (to_uuid uuid) as [pk|] eqn:U; [|intros [= <- <-]; right; eauto].
  destruct (to_uuid dfid) as [u|] eqn:D; [|intros [= <- <-]; right; eauto].
  destruct (existsb _ tbl) eqn:X; intros [= <- <-]; [right; eauto|].
  left. split; trivial. eexists. split; [reflexivity|]. split.
  - exists uuid. simpl. repeat split; trivial.
  - simpl. intro H. apply existsb_id_In in H. simpl in X. congruence.
Qed.

(** The loop, in full: the rows written are those of a prefix of the
    deltas, all of them when the loop ends, and they keep the primary keys
    distinct. *)
Lemma store_deltas_rows (usr : N) (dfid : Json) (projectid : string)
    (ds : list Json) :
  forall (tbl tbl' : list Delta) (r : result Caught unit),
    store_deltas usr dfid projectid ds tbl = (tbl', r) ->
    exists saved,
      tbl' = tbl ++ saved /\
      Forall2 (stored_as usr dfid projectid) (firstn (List.length saved) ds) saved /\
      (NoDup (map id tbl) -> NoDup (map id tbl')) /\
      (r = Ok tt -> List.length saved = List.length ds) /\
      (forall e, r = Raise e -> List.length saved < List.length ds).
Proof.
  induction ds as [|delta rest IH]; intros tbl tbl' r; simpl.
  - unfold ret. intros [= <- <-]. exists []. rewrite app_nil_r. simpl.
    repeat split; trivial; intros; try discriminate; constructor.
  - unfold bind.
    destruct (store_delta usr dfid projectid delta tbl) as [tbl1 r1] eqn:E.
    apply store_delta_row in E.
    destruct E as [[-> (d & -> & Hd & Hnew)] | [(e & ->) ->]].
    + intro H. apply IH in H. destruct H as (saved & -> & Hrows & Hnd & Hok & Herr).
      exists (d :: saved). rewrite <- app_assoc. simpl.
      repeat split; trivial.
      * now constructor.
      * intro Hpk.
        replace (tbl ++ d :: saved) with ((tbl ++ [d]) ++ saved)
          by (now rewrite <- app_assoc).
        apply Hnd. rewrite map_app. simpl.
        apply NoDup_app; trivial.
        -- repeat constructor. intros [].
        -- intros x Hx [<-|[]]. contradiction.
      * intro Hr. now rewrite (Hok Hr).
      * intros e Hr. specialize (Herr e Hr). lia.
    + intros [= <- <-]. exists []. rewrite app_nil_r. simpl.
      repeat split; trivial; intros; try discriminate; try lia; constructor.
Qed.

Lemma try_block_cases (usr : N) (projectid : string) (f : FileObj)
    (tbl tbl' : list Delta) (r : result Caught unit) :
  try_block usr projectid f tbl = (tbl', r) ->
  match read_deltafile f with
  | Raise e => tbl' = tbl /\ r = Raise e
  | Ok (dfid, ds) => store_deltas usr dfid projectid ds tbl = (tbl', r)
  end.
Proof.
  unfold try_block, bind, lift.
  destruct (read_deltafile f) as [[dfid ds]|e]; simpl; [trivial|].
  now intros [= <- <-].
Qed.

(** What [post] does to the delta table, whatever the outcome. *)
Lemma post_appends (request : Request) (projectid now : string) (w : World) :
  exists saved,
    deltas (fst (post request projectid now w)) = deltas w ++ saved /\
    Forall (fun r => project r = projectid) saved /\
    (NoDup (map id (deltas w)) ->
     NoDup (map id (deltas (fst (post request projectid now w))))).
Proof.
  assert (Hnil : forall w', deltas w' = deltas w ->
            exists saved, deltas w' = deltas w ++ saved /\
              Forall (fun r => project r = projectid) saved /\
              (NoDup (map id (deltas w)) -> NoDup (map id (deltas w')))).
  { intros w' E. exists []. rewrite app_nil_r, E. repeat split; trivial. }
  unfold post. destruct (existsb (String.eqb projectid) (projects w)); [|now apply Hnil].
  destruct (data_file request) as [f|]; [|now apply Hnil].
  destruct (try_block (user request) projectid f (deltas w)) as [tbl r] eqn:E.
  assert (Hsaved : exists saved, tbl = deltas w ++ saved /\
            Forall (fun r => project r = projectid) saved /\
            (NoDup (map id (deltas w)) -> NoDup (map id tbl))).
  { apply try_block_cases in E.
    destruct (read_deltafile f) as [[dfid ds]|e].
    - apply store_deltas_rows in E. destruct E as (saved & -> & Hrows & Hnd & _).
      exists saved. repeat split; trivial.
      clear Hnd. induction Hrows as [|delta d ds' saved' Hd _ IH]; constructor; trivial.
      destruct Hd as (uuid & _ & _ & _ & Hp & _). exact Hp.
    - destruct E as [-> _]. exists []. rewrite app_nil_r. repeat split; trivial. }
  destruct r; exact Hsaved.
Qed.

End Uploads.

(** X10 (an accepted upload stores every delta).  When [post] answers with
    the empty response, the file parsed and passed the schema, and the
    delta table holds its old rows followed by one new row per delta of the
    file, in the order of the file: each with the converted uuid of its
    delta as primary key, the converted id of the file, the project of the
    request, the delta as content, and status pending or unpermitted as
    [can_store_delta] says.  A delta the user may not store is thus stored
    all the same, marked unpermitted.  Projects and bucket are untouched. *)
Theorem accepted_upload_stores_every_delta (C : Collaborators)
    (request : Request) (projectid now : string) (w w1 : World) (f : FileObj)
    (Hfile : data_file request = Some f)
    (Hok : post request projectid now w = (w1, Ok tt)) :
  In projectid (projects w) /\
  exists dfid ds rows,
    read_deltafile f = Ok (dfid, ds) /\
    w1 = {| projects := projects w; deltas := deltas w ++ rows; bucket := bucket w |} /\
    Forall2 (stored_as (user request) dfid projectid) ds rows.
Proof.
  unfold post in Hok.
  destruct (existsb (String.eqb projectid) (projects w)) eqn:Hp; [|discriminate].
  split; [now apply existsb_eqb_In|].
  rewrite Hfile in Hok.
  destruct (try_block (user request) projectid f (deltas w)) as [tbl r] eqn:E.
  destruct r as [[]|e]; [|discriminate]. injection Hok as <-.
  apply try_block_cases in E.
  destruct (read_deltafile f) as [[dfid ds]|e]; [|destruct E; discriminate].
  apply store_deltas_rows in E. destruct E as (rows & -> & Hrows & _ & Hlen & _).
  exists dfid, ds, rows. repeat split.
  rewrite (Hlen eq_refl), firstn_all in Hrows. exact Hrows.
Qed.

Lemma accepted_upload_stores_every_delta_witness :
  exists dfid ds rows,
    @read_deltafile DeltaFixtures.collaborators_ok "ok.json"%string = Ok (dfid, ds) /\
    fst (@post DeltaFixtures.collaborators_ok DeltaFixtures.upload_ok "p1"
               "2021-03-01T10:00:00" DeltaFixtures.world_2)
    = {| projects := projects DeltaFixtures.world_2;
         deltas := deltas DeltaFixtures.world_2 ++ rows;
         bucket := bucket DeltaFixtures.world_2 |} /\
    Forall2 (@stored_as DeltaFixtures.collaborators_ok 5 dfid "p1") ds rows.
Proof.
  apply (proj2 (accepted_upload_stores_every_delta DeltaFixtures.collaborators_ok
                  DeltaFixtures.upload_ok "p1" "2021-03-01T10:00:00"
                  DeltaFixtures.world_2 _ "ok.json"%string eq_refl eq_refl)).
Defined.

(** X11 (uploads only append).  Whatever the request and whatever the
    outcome, [post] leaves the project table as it was and every old delta
    row in place; the rows it adds come after them and belong to the
    project of the request; if the primary keys of the delta table were
    distinct they still are; and the bucket is either untouched or one
    object larger, under the key of the rejected file. *)
Theorem upload_only_appends (C : Collaborators)
    (request : Request) (projectid now : string) (w : World) :
  let w1 := fst (post request projectid now w) in
  projects w1 = projects w /\
  (exists saved,
      deltas w1 = deltas w ++ saved /\
      Forall (fun r => project r = projectid) saved) /\
  (NoDup (map id (deltas w)) -> NoDup (map id (deltas w1))) /\
  (bucket w1 = bucket w \/
   exists f, data_file request = Some f /\
             bucket w1 = (rejected_key projectid now, f) :: bucket w).
Proof.
  intro w1. unfold w1.
  destruct (post_appends request projectid now w) as (saved & Hd & Hp & Hnd).
  split; [|split; [eauto | split; [exact Hnd|]]].
  - unfold post. destruct (existsb _ (projects w)); trivial.
    destruct (data_file request); trivial.
    destruct (try_block _ _ _ _) as [tbl [u|e]]; reflexivity.
  - unfold post. destruct (existsb _ (projects w)); [|now left].
    destruct (data_file request) as [f|]; [|now left].
    destruct (try_block _ _ _ _) as [tbl [u|e]]; [now left|].
    right. exists f. split; reflexivity.
Qed.

Lemma upload_only_appends_witness :
  NoDup (map id (deltas (fst (@post DeltaFixtures.collaborators DeltaFixtures.upload
                                     "p1" "2021-03-01T10:00:00" DeltaFixtures.world)))).
Proof.
  apply (proj1 (proj2 (proj2 (upload_only_appends DeltaFixtures.collaborators
                                DeltaFixtures.upload "p1" "2021-03-01T10:00:00"
                                DeltaFixtures.world)))).
  constructor.
Defined.



Section Listings.
Context {C : Collaborators}.

Lemma filter_all (A : Type) (g : A -> bool) (l : list A) :
  Forall (fun x => g x = true) l -> filter g l = l.
Proof. induction 1 as [|x l Hx _ IH]; simpl; [reflexivity | now rewrite Hx, IH]. Qed.

Lemma filter_none (A : Type) (g : A -> bool) (l : list A) :
  Forall (fun x => g x = false) l -> filter g l = [].
Proof. induction 1 as [|x l Hx _ IH]; simpl; [reflexivity | now rewrite Hx]. Qed.

End Listings.

(** X13 (what was uploaded is listed).  The listings name no ordering, so
    they are compared as collections of rows.  After an upload that [post]
    accepted, the delta table holds one new row per delta of the file; the
    listing of the project holds the rows it held before the upload together
    with the new rows, each as often as before, and nothing else; and so does
    the listing of the deltafile, asked under an id that the UUID column
    converts to the same value as the id of the file. *)
Theorem uploaded_deltas_are_listed (C : Collaborators)
    (R : RowOrder) (HR : row_order_spec R)
    (request : Request) (projectid now : string) (w w1 : World) (f : FileObj)
    (Hfile : data_file request = Some f)
    (Hok : post request projectid now w = (w1, Ok tt)) :
  exists dfid ds rows listed listed1,
    read_deltafile f = Ok (dfid, ds) /\
    deltas w1 = deltas w ++ rows /\
    map content rows = ds /\
    ListCreateDeltasView_get_queryset projectid w = Ok listed /\
    ListCreateDeltasView_get_queryset projectid w1 = Ok listed1 /\
    Permutation listed1 (listed ++ rows) /\
    forall deltafileid u,
      to_uuid dfid = Some u -> to_uuid (JStr deltafileid) = Some u ->
      exists listed' listed1',
        ListDeltasByDeltafileView_get_queryset projectid deltafileid w = Ok listed' /\
        ListDeltasByDeltafileView_get_queryset projectid deltafileid w1 = Ok listed1' /\
        Permutation listed1' (listed' ++ rows).
Proof.
  unfold post in Hok.
  destruct (existsb (String.eqb projectid) (projects w)) eqn:Hp; [|discriminate].
  rewrite Hfile in Hok.
  destruct (try_block (user request) projectid f (deltas w)) as [tbl r] eqn:E.
  destruct r as [[]|e]; [|discriminate]. injection Hok as <-.
  apply try_block_cases in E.
  destruct (read_deltafile f) as [[dfid ds]|e]; [|destruct E; discriminate].
  apply store_deltas_rows in E. destruct E as (rows & -> & Hrows & _ & Hlen & _).
  rewrite (Hlen eq_refl), firstn_all in Hrows.
  assert (Hproj : Forall (fun d => String.eqb (project d) projectid = true) rows).
  { clear Hlen. induction Hrows as [|delta d ds' rows' Hd _ IH]; constructor; trivial.
    destruct Hd as (uuid & _ & _ & _ & Hpr & _). rewrite Hpr. apply String.eqb_refl. }
  assert (Hcontent : map content rows = ds).
  { clear Hlen Hproj. induction Hrows as [|delta d ds' rows' Hd _ IH]; simpl; trivial.
    destruct Hd as (uuid & _ & _ & _ & _ & Hc & _). now rewrite Hc, IH. }
  assert (Hdfid : forall u, to_uuid dfid = Some u ->
             Forall (fun d => String.eqb (project d) projectid
                              && N.eqb (deltafile_id d) u = true) rows).
  { intros u Hdf. clear Hlen Hcontent.
    induction Hrows as [|delta d ds' rows' Hd _ IH]; constructor.
    - destruct Hd as (uuid & _ & _ & Hdf' & Hpr & _).
      rewrite Hpr, String.eqb_refl. simpl. apply N.eqb_eq. congruence.
    - apply IH. now inversion Hproj. }
  assert (Hgrow : forall g : Delta -> bool,
             Forall (fun d => g d = true) rows ->
             Permutation (unordered (filter g (deltas w ++ rows)))
                         (unordered (filter g (deltas w)) ++ rows)).
  { intros g Hg. rewrite filter_app, (filter_all _ _ _ Hg).
    etransitivity; [apply Permutation_sym, HR|].
    apply Permutation_app_tail, HR. }
  exists dfid, ds, rows. do 2 eexists.
  unfold ListCreateDeltasView_get_queryset,
    ListDeltasByDeltafileView_get_queryset. simpl. rewrite Hp.
  split; [reflexivity|]. split; [reflexivity|]. split; [exact Hcontent|].
  split; [reflexivity|]. split; [reflexivity|]. split.
  { now apply Hgrow. }
  intros deltafileid u Hdf Hurl. rewrite Hurl. do 2 eexists.
  split; [reflexivity|]. split; [reflexivity|].
  apply Hgrow. now apply Hdfid.
Qed.

Lemma newest_first_spec : row_order_spec DeltaFixtures.newest_first.
Proof. intro l. apply Permutation_rev. Qed.

Lemma uploaded_deltas_are_listed_witness :
  exists dfid ds rows listed listed1,
    @read_deltafile DeltaFixtures.collaborators_ok "ok.json"%string = Ok (dfid, ds) /\
    map content rows = ds /\
    @ListCreateDeltasView_get_queryset DeltaFixtures.newest_first "p1"
      DeltaFixtures.world_2 = Ok listed /\
    @ListCreateDeltasView_get_queryset DeltaFixtures.newest_first "p1"
      (fst (@post DeltaFixtures.collaborators_ok DeltaFixtures.upload_ok "p1"
                  "2021-03-01T10:00:00" DeltaFixtures.world_2))
    = Ok listed1 /\
    Permutation listed1 (listed ++ rows).
Proof.
  destruct (uploaded_deltas_are_listed DeltaFixtures.collaborators_ok
              DeltaFixtures.newest_first newest_first_spec
              DeltaFixtures.upload_ok "p1" "2021-03-01T10:00:00"
              DeltaFixtures.world_2 _ "ok.json"%string eq_refl eq_refl)
    as (dfid & ds & rows & listed & listed1 & H1 & _ & H2 & H3 & H4 & H5 & _).
  exists dfid, ds, rows, listed, listed1. auto.
Defined.

(** X14 (uploads do not leak into other projects).  Whatever the request
    and the outcome of [post], the listing of any other project, and the
    listing of any deltafile of any other project, is what it was before. *)
Theorem upload_leaves_other_projects (C : Collaborators) (R : RowOrder)
    (request : Request) (projectid now other : string) (w : World)
    (Hother : other <> projectid) :
  ListCreateDeltasView_get_queryset other (fst (post request projectid now w))
  = ListCreateDeltasView_get_queryset other w /\
  forall deltafileid,
    ListDeltasByDeltafileView_get_queryset other deltafileid
      (fst (post request projectid now w))
    = ListDeltasByDeltafileView_get_queryset other deltafileid w.
Proof.
  destruct (post_appends request projectid now w) as (saved & Hd & Hp & _).
  assert (Hprojects : projects (fst (post request projectid now w)) = projects w).
  { unfold post. destruct (existsb _ (projects w)); trivial.
    destruct (data_file request); trivial.
    destruct (try_block _ _ _ _) as [tbl [u|e]]; reflexivity. }
  assert (Hnot : Forall (fun d => String.eqb (project d) other = false) saved).
  { rewrite Forall_forall in *. intros d Hin. rewrite (Hp d Hin).
    apply String.eqb_neq. congruence. }
  unfold ListCreateDeltasView_get_queryset, ListDeltasByDeltafileView_get_queryset.
  rewrite Hprojects, Hd. split.
  - destruct (existsb _ (projects w)); trivial.
    now rewrite filter_app, (filter_none _ _ _ Hnot), app_nil_r.
  - intro deltafileid. destruct (existsb _ (projects w)); trivial.
    destruct (to_uuid (JStr deltafileid)) as [u|]; trivial.
    rewrite filter_app. do 2 f_equal. rewrite <- app_nil_r. f_equal.
    apply filter_none. rewrite Forall_forall in *. intros d Hin.
    now rewrite (Hnot d Hin).
Qed.

Lemma upload_leaves_other_projects_witness :
  @ListCreateDeltasView_get_queryset DeltaFixtures.newest_first "p2"
    (fst (@post DeltaFixtures.collaborators_ok DeltaFixtures.upload_ok "p1"
                "2021-03-01T10:00:00" DeltaFixtures.world_2))
  = @ListCreateDeltasView_get_queryset DeltaFixtures.newest_first "p2"
      DeltaFixtures.world_2.
Proof.
  apply (proj1 (upload_leaves_other_projects DeltaFixtures.collaborators_ok
                  DeltaFixtures.newest_first
                  DeltaFixtures.upload_ok "p1" "2021-03-01T10:00:00" "p2"
                  DeltaFixtures.world_2 ltac:(discriminate))).
Defined.

(** X15 (who may list and who may upload).  [has_permission] raises exactly
    when the project does not exist, whatever the method; it grants exactly
    a GET of a user who may list the deltas of the project and a POST of a
    user who may upload to it, and so no other method; and whenever it
    answers, granting or not, neither [post] nor the listing of the project
    in the same state fails on the project lookup. *)
Theorem has_permission_grants (C : Collaborators) (P : Permissions) (R : RowOrder)
    (method : string) (usr : N) (projectid : string) (w : World) :
  (has_permission method usr projectid w = Raise ProjectDoesNotExist <->
   ~ In projectid (projects w)) /\
  (has_permission method usr projectid w = Ok true <->
   In projectid (projects w) /\
   ((method = "GET"%string /\ can_list_deltas usr projectid = true) \/
    (method = "POST"%string /\ can_upload_deltas usr projectid = true))) /\
  (forall b,
      has_permission method usr projectid w = Ok b ->
      (forall request now,
          snd (post request projectid now w) <> Raise DoesNotExist) /\
      exists listed, ListCreateDeltasView_get_queryset projectid w = Ok listed).
Proof.
  unfold has_permission, ListCreateDeltasView_get_queryset, post.
  pose proof (existsb_eqb_In projectid (projects w)) as Hin.
  destruct (existsb (String.eqb projectid) (projects w)).
  - assert (Hp : In projectid (projects w)) by now apply Hin.
    split; [|split].
    + split; [|tauto].
      destruct (String.eqb method "GET"); [discriminate|].
      destruct (String.eqb method "POST"); discriminate.
    + destruct (String.eqb_spec method "GET") as [->|Hg].
      * split; [intro H; injection H as H; auto|].
        intros [_ [[_ H]|[H _]]]; [now rewrite H | discriminate].
      * destruct (String.eqb_spec method "POST") as [->|Hpost].
        -- split; [intro H; injection H as H; auto|].
           intros [_ [[H _]|[_ H]]]; [discriminate | now rewrite H].
        -- split; [discriminate | tauto].
    + intros b _. split; [|eauto].
      intros request now. destruct (data_file request); [|discriminate].
      destruct (try_block _ _ _ _) as [tbl [u|e]]; discriminate.
  - assert (Hp : ~ In projectid (projects w)).
    { intro H. apply Hin in H. discriminate. }
    split; [|split].
    + tauto.
    + split; [discriminate | tauto].
    + intros b H. discriminate.
Qed.

Lemma has_permission_grants_witness :
  @has_permission DeltaFixtures.permissions "POST" 5 "p1" DeltaFixtures.world_2
  = Ok true /\
  forall request now,
    snd (@post DeltaFixtures.collaborators_ok request "p1" now DeltaFixtures.world_2)
    <> Raise DoesNotExist.
Proof.
  pose proof (has_permission_grants DeltaFixtures.collaborators_ok
                DeltaFixtures.permissions DeltaFixtures.newest_first
                "POST" 5 "p1" DeltaFixtures.world_2)
    as (_ & Hgrant & Hlookup).
  split.
  - apply Hgrant. split; [now left|]. right. split; reflexivity.
  - apply (Hlookup true). reflexivity.
Defined.

End DeltasViewsMore.
